(** * govc/cli/walk.go: the reflective walker [Walk]

    [Walk(c, ifaceType, fn)] walks the struct behind the pointer [c], wires
    every field whose type implements [ifaceType] to one shared instance per
    field type, and calls [fn] on every struct it walked.  The development
    embeds the part of Go's [reflect] package that [Walk] uses (types, struct
    fields, addressable values, [New], [Set], [Interface]) over an explicit
    heap, and proves the properties of the walker on that embedding.

    What the embedding takes from Go:
    - [ifaceType] is an interface type, and [t.Implements(ifaceType)] is a
      predicate on types, [implements]; nothing is assumed of it;
    - a pointer designates a whole allocated struct (no pointer into the
      middle of a struct), and a defined type is not of pointer kind;
    - the visitor [fn] reads the structs and has a state of its own, but does
      not write to the structs;
    - panics of [reflect] are results of the walker, like the panics of
      [Walk] itself.

    The last part of the file embeds the methods of the [Client] flag of the
    same package, over the functions of [net/url], [os], [flag] and
    [govmomi] they call. *)

From stdpp Require Import base option list gmap sets strings.
From Stdlib Require Import Ascii Lia.

Set Warnings "-clear-no-such-hyp".

Local Open Scope string_scope.

(** ** reflect.Type *)

(** A type is a defined (named) type or a pointer to a type.  What a defined
    type is (a struct with fields, or anything else: an int, a string, an
    interface, ...) is given by the schema below. *)
Inductive rtype : Type :=
| TNamed (name : string)
| TPtr (elem : rtype).

#[global] Instance rtype_eq_dec : EqDecision rtype.
Proof. solve_decision. Defined.

Fixpoint rtype_enc (t : rtype) : nat * string :=
  match t with
  | TNamed n => (0, n)
  | TPtr e => let '(k, n) := rtype_enc e in (S k, n)
  end.

Fixpoint rtype_dec_aux (k : nat) (n : string) : rtype :=
  match k with
  | 0 => TNamed n
  | S k' => TPtr (rtype_dec_aux k' n)
  end.

Definition rtype_dec (p : nat * string) : rtype := rtype_dec_aux p.1 p.2.

Lemma rtype_dec_enc (t : rtype) : rtype_dec (rtype_enc t) = t.
Proof.
  induction t as [n | e IH]; [reflexivity |].
  simpl. destruct (rtype_enc e) as [k n]. unfold rtype_dec in *. simpl in *.
  by rewrite IH.
Qed.

#[global] Instance rtype_countable : Countable rtype.
Proof. exact (inj_countable' rtype_enc rtype_dec rtype_dec_enc). Defined.

(** [reflect.StructField]: the part [Walk] and [reflect] read.  [PkgPath]
    is empty for an exported field and names the package of a field that is
    not exported, as in [reflect]. *)
Record StructField : Type := mkField {
  Name : string;
  PkgPath : string;
  Typ : rtype;
  Anonymous : bool
}.

(** The declared struct types of the program, by name.  A name that is not
    declared here is a type that is not a struct. *)
Abbreviation schema := (gmap string (list StructField)).

Definition struct_fields (sch : schema) (t : rtype) : option (list StructField) :=
  match t with
  | TNamed n => sch !! n
  | TPtr _ => None
  end.

(** [ft.Kind() == reflect.Ptr] *)
Definition is_ptr (t : rtype) : bool :=
  match t with TPtr _ => true | TNamed _ => false end.

(** [ft.Elem()] of a pointer type. *)
Definition Elem (t : rtype) : rtype :=
  match t with TPtr e => e | TNamed _ => t end.

(** [Type.String()], as [%s] prints a type. *)
Fixpoint type_string (t : rtype) : string :=
  match t with
  | TNamed n => n
  | TPtr e => "*" +:+ type_string e
  end.

(** A field is exported when its [PkgPath] is empty. *)
Definition is_exported (ff : StructField) : bool :=
  bool_decide (PkgPath ff = "").

(** Every field type of the schema: the types that can ever be a key of the
    walker's [visited] map. *)
Definition schema_field_types (sch : schema) : list rtype :=
  mbind (fun p : string * list StructField => Typ <$> p.2) (map_to_list sch).

(** ** Values and the heap *)

Abbreviation addr := nat.

(** The value a field holds: a nil pointer, a pointer to an allocated object,
    a struct held by value, or other data.  Pointers designate whole
    allocated objects. *)
#[warnings="-register-all"]
Inductive value : Type :=
| VNil
| VPtr (a : addr)
| VData (d : Z)
| VStruct (fs : list value).

(** An allocated object: its dynamic type and, for a struct, its fields. *)
Record obj : Type := mkObj {
  otype : rtype;
  ofields : list value
}.

Abbreviation heap_t := (list obj).

Fixpoint zero_value (sch : schema) (fuel : nat) (t : rtype) : value :=
  match t with
  | TPtr _ => VNil
  | TNamed n =>
      match sch !! n with
      | None => VData 0
      | Some fs =>
          match fuel with
          | 0 => VStruct []
          | S k => VStruct ((fun ff => zero_value sch k (Typ ff)) <$> fs)
          end
      end
  end.

(** The object [reflect.New(t)] allocates: the zero value of [t]. *)
Definition zero_obj (sch : schema) (t : rtype) : obj :=
  {| otype := t;
     ofields := match struct_fields sch t with
                | Some fs => (fun ff => zero_value sch (size sch) (Typ ff)) <$> fs
                | None => []
                end |}.

Definition field_get (h : heap_t) (a : addr) (i : nat) : value :=
  default VNil (o ← h !! a; ofields o !! i).

Definition obj_set (i : nat) (x : value) (o : obj) : obj :=
  {| otype := otype o; ofields := <[i := x]> (ofields o) |}.

(** ** reflect.Value, as the [visited] map stores it *)

(** [RPtr a] is the value [reflect.New] returns: it holds the pointer [a].
    [RField a i ro] is [v.Field(i)] of the struct at [a]: an addressable value
    that refers to the field itself, so reading it reads what the field holds
    at that moment; [ro] is reflect's read-only flag, set when the field is
    not exported. *)
Inductive rvalue : Type :=
| RPtr (a : addr)
| RField (a : addr) (i : nat) (ro : bool).

Definition load (h : heap_t) (rv : rvalue) : value :=
  match rv with
  | RPtr a => VPtr a
  | RField a i _ => field_get h a i
  end.

Definition is_ro (rv : rvalue) : bool :=
  match rv with
  | RPtr _ => false
  | RField _ _ ro => ro
  end.

(** [fv.IsNil()] on a value of pointer kind. *)
Definition IsNil (h : heap_t) (rv : rvalue) : bool :=
  match load h rv with
  | VPtr _ => false
  | _ => true
  end.

(** ** Panic messages *)

Definition dq : string := String (ascii_of_nat 34) EmptyString.

Definition must_be_pointer (ff : StructField) (t : rtype) : string :=
  "field " +:+ dq +:+ Name ff +:+ dq +:+ " in struct " +:+ dq +:+
  type_string t +:+ dq +:+ " must be a pointer".

Definition must_not_be_anonymous (ff : StructField) (t : rtype) : string :=
  "field " +:+ dq +:+ Name ff +:+ dq +:+ " in struct " +:+ dq +:+
  type_string t +:+ dq +:+ " must not be anonymous".

Definition panic_zero_value : string :=
  "reflect: call of reflect.Value.Type on zero Value".
Definition panic_elem : string :=
  "reflect: call of reflect.Value.Elem on non-pointer Value".
Definition panic_num_field : string :=
  "reflect: NumField of non-struct type".
Definition panic_interface : string :=
  "reflect.Value.Interface: cannot return value obtained from unexported field or method".
Definition panic_interface_zero : string :=
  "reflect: call of reflect.Value.Interface on zero Value".
Definition panic_set : string :=
  "reflect: reflect.Value.Set using value obtained using unexported field".
Definition panic_set_zero : string :=
  "reflect: call of reflect.Value.Set on zero Value".

Local Close Scope string_scope.

(** ** The walker *)

Section Walk.

(** The error values of the program, and the private state of the visitor. *)
Variable error : Type.
Variable VS : Type.

(** What happened, in order: a call of the visitor on the struct at [a] with
    what it returned, or a [fv.Set] of field [i] of the struct at [a]. *)
Inductive event : Type :=
| EVisit (a : addr) (r : option error)
| ESet (a : addr) (i : nat) (x : value).

Record state : Type := mkState {
  heap : heap_t;
  visited : gmap rtype rvalue;
  vstate : VS;
  trace : list event
}.

Inductive result : Type :=
| Ok
| Err (e : error)
| Panic (msg : string).

(** [WalkFn]: the visitor is called with the pointer [c], reads the structs
    and its own state, and returns an error or nil ([None]) and its new
    state. *)
Definition WalkFn : Type := addr -> heap_t -> VS -> option error * VS.

Variable sch : schema.
(** [t.Implements(ifaceType)] *)
Variable implements : rtype -> bool.
Variable fn : WalkFn.

Definition alloc (t : rtype) (st : state) : state :=
  {| heap := heap st ++ [zero_obj sch t];
     visited := visited st;
     vstate := vstate st;
     trace := trace st |}.

(** [visited[ft] = rv] *)
Definition register (ft : rtype) (rv : rvalue) (st : state) : state :=
  {| heap := heap st;
     visited := <[ft := rv]> (visited st);
     vstate := vstate st;
     trace := trace st |}.

(** [x.Interface()], where [x] is [visited[ft]]: the zero Value when the key
    is missing.  [inr] is a panic. *)
Definition Interface (h : heap_t) (x : option rvalue) : value + string :=
  match x with
  | None => inr panic_interface_zero
  | Some rv => if is_ro rv then inr panic_interface else inl (load h rv)
  end.

(** [fv.Set(x)], where [fv] is field [i] of the struct at [a]. *)
Definition Set_ (a : addr) (i : nat) (ro : bool) (x : option rvalue)
    (st : state) : result * state :=
  if ro then (Panic panic_set, st)
  else match x with
       | None => (Panic panic_set_zero, st)
       | Some rv =>
           if is_ro rv then (Panic panic_set, st)
           else
             let y := load (heap st) rv in
             (Ok, {| heap := alter (obj_set i y) a (heap st);
                     visited := visited st;
                     vstate := vstate st;
                     trace := trace st ++ [ESet a i y] |})
       end.

(** [err := fn(c)] *)
Definition call_fn (a : addr) (st : state) : result * state :=
  let '(r, vs) := fn a (heap st) (vstate st) in
  (match r with Some e => Err e | None => Ok end,
   {| heap := heap st;
      visited := visited st;
      vstate := vs;
      trace := trace st ++ [EVisit a r] |}).

(** The body of the loop over the fields, for field [i] (descriptor [ff]) of
    the struct at [a], whose type is [t].  [rec] is the recursive call of the
    walker; [None] is a walker that ran out of fuel. *)
Definition field_step (rec : value -> state -> option (result * state))
    (a : addr) (t : rtype) (i : nat) (ff : StructField) (st : state)
    : option (result * state) :=
  let ft := Typ ff in
  let ro := negb (is_exported ff) in
  let fv := RField a i ro in
  if implements (TPtr ft) then Some (Panic (must_be_pointer ff t), st)
  else if negb (implements ft) then Some (Ok, st)
  else if negb (is_ptr ft) then Some (Panic (must_be_pointer ff t), st)
  else if Anonymous ff then Some (Panic (must_not_be_anonymous ff t), st)
  else
    match
      match visited st !! ft with
      | Some _ => Some (Ok, st)
      | None =>
          let st1 :=
            if IsNil (heap st) fv
            then register ft (RPtr (length (heap st))) (alloc (Elem ft) st)
            else register ft fv st in
          match Interface (heap st1) (visited st1 !! ft) with
          | inr msg => Some (Panic msg, st1)
          | inl c => rec c st1
          end
      end
    with
    | Some (Ok, st2) => Some (Set_ a i ro (visited st2 !! ft) st2)
    | other => other
    end.

Fixpoint fields_loop (rec : value -> state -> option (result * state))
    (a : addr) (t : rtype) (fs : list StructField) (i : nat) (st : state)
    : option (result * state) :=
  match fs with
  | [] => Some (Ok, st)
  | ff :: rest =>
      match field_step rec a t i ff st with
      | Some (Ok, st') => fields_loop rec a t rest (S i) st'
      | other => other
      end
  end.

Definition walker_body (rec : value -> state -> option (result * state))
    (c : value) (st : state) : option (result * state) :=
  match c with
  | VPtr a =>
      match heap st !! a with
      | None => Some (Panic panic_zero_value, st)
      | Some o =>
          let t := otype o in
          match struct_fields sch t with
          | None => Some (Panic panic_num_field, st)
          | Some fs =>
              match fields_loop rec a t fs 0 st with
              | Some (Ok, st') => Some (call_fn a st')
              | other => other
              end
          end
      end
  | VNil => Some (Panic panic_zero_value, st)
  | _ => Some (Panic panic_elem, st)
  end.

Fixpoint walker (fuel : nat) (c : value) (st : state) : option (result * state) :=
  match fuel with
  | 0 => None
  | S n => walker_body (walker n) c st
  end.

Definition init_state (h : heap_t) (vs : VS) : state :=
  {| heap := h; visited := ∅; vstate := vs; trace := [] |}.

(** [Walk(c, ifaceType, fn)] on the heap [h].  Every recursive call adds a
    field type of the schema to [visited], so the walker needs at most one
    level of recursion per field type and one for the root. *)
Definition Walk (c : value) (h : heap_t) (vs : VS) : option (result * state) :=
  walker (S (length (schema_field_types sch))) c (init_state h vs).

(** ** The walker as a relation

    The same walker, as the derivations of its runs: [wexec] is a call of
    the walker, [lexec] the loop from field [i] on, [fexec] the body of the
    loop for one field.  The properties of [walker] are proved by induction
    on these derivations. *)

(** Field [i] of the struct type [t] is [ff]. *)
Definition declared (t : rtype) (i : nat) (ff : StructField) : Prop :=
  exists fs, struct_fields sch t = Some fs /\ fs !! i = Some ff.

(** The checks a field passes before the walker looks at [visited]. *)
Definition wirable (ff : StructField) : Prop :=
  implements (TPtr (Typ ff)) = false /\ implements (Typ ff) = true /\
  is_ptr (Typ ff) = true /\ Anonymous ff = false.

(** The state after the walker registered the type of field [i] of the
    struct at [a]. *)
Definition registered (a : addr) (i : nat) (ff : StructField) (st : state) : state :=
  let fv := RField a i (negb (is_exported ff)) in
  if IsNil (heap st) fv
  then register (Typ ff) (RPtr (length (heap st))) (alloc (Elem (Typ ff)) st)
  else register (Typ ff) fv st.

Inductive wexec : value -> state -> result -> state -> Prop :=
| W_nil st : wexec VNil st (Panic panic_zero_value) st
| W_data d st : wexec (VData d) st (Panic panic_elem) st
| W_struct vs st : wexec (VStruct vs) st (Panic panic_elem) st
| W_dangling a st :
    heap st !! a = None ->
    wexec (VPtr a) st (Panic panic_zero_value) st
| W_nonstruct a o st :
    heap st !! a = Some o -> struct_fields sch (otype o) = None ->
    wexec (VPtr a) st (Panic panic_num_field) st
| W_abort a o fs st r st' :
    heap st !! a = Some o -> struct_fields sch (otype o) = Some fs ->
    lexec a (otype o) fs 0 st r st' -> r <> Ok ->
    wexec (VPtr a) st r st'
| W_visit a o fs st st1 r st' :
    heap st !! a = Some o -> struct_fields sch (otype o) = Some fs ->
    lexec a (otype o) fs 0 st Ok st1 -> call_fn a st1 = (r, st') ->
    wexec (VPtr a) st r st'
with lexec : addr -> rtype -> list StructField -> nat -> state -> result -> state -> Prop :=
| L_nil a t i st : lexec a t [] i st Ok st
| L_abort a t ff rest i st r st' :
    declared t i ff ->
    fexec a t i ff st r st' -> r <> Ok ->
    lexec a t (ff :: rest) i st r st'
| L_next a t ff rest i st st1 r st' :
    declared t i ff ->
    fexec a t i ff st Ok st1 -> lexec a t rest (S i) st1 r st' ->
    lexec a t (ff :: rest) i st r st'
with fexec : addr -> rtype -> nat -> StructField -> state -> result -> state -> Prop :=
| F_value a t i ff st :
    implements (TPtr (Typ ff)) = true ->
    fexec a t i ff st (Panic (must_be_pointer ff t)) st
| F_skip a t i ff st :
    implements (TPtr (Typ ff)) = false -> implements (Typ ff) = false ->
    fexec a t i ff st Ok st
| F_kind a t i ff st :
    implements (TPtr (Typ ff)) = false -> implements (Typ ff) = true ->
    is_ptr (Typ ff) = false ->
    fexec a t i ff st (Panic (must_be_pointer ff t)) st
| F_anonymous a t i ff st :
    implements (TPtr (Typ ff)) = false -> implements (Typ ff) = true ->
    is_ptr (Typ ff) = true -> Anonymous ff = true ->
    fexec a t i ff st (Panic (must_not_be_anonymous ff t)) st
| F_seen a t i ff st rv r st' :
    wirable ff -> visited st !! Typ ff = Some rv ->
    Set_ a i (negb (is_exported ff)) (Some rv) st = (r, st') ->
    fexec a t i ff st r st'
| F_interface a t i ff st msg :
    wirable ff -> visited st !! Typ ff = None ->
    Interface (heap (registered a i ff st))
      (visited (registered a i ff st) !! Typ ff) = inr msg ->
    fexec a t i ff st (Panic msg) (registered a i ff st)
| F_abort a t i ff st c r st' :
    wirable ff -> visited st !! Typ ff = None ->
    Interface (heap (registered a i ff st))
      (visited (registered a i ff st) !! Typ ff) = inl c ->
    wexec c (registered a i ff st) r st' -> r <> Ok ->
    fexec a t i ff st r st'
| F_new a t i ff st c st2 r st' :
    wirable ff -> visited st !! Typ ff = None ->
    Interface (heap (registered a i ff st))
      (visited (registered a i ff st) !! Typ ff) = inl c ->
    wexec c (registered a i ff st) Ok st2 ->
    Set_ a i (negb (is_exported ff)) (visited st2 !! Typ ff) st2 = (r, st') ->
    fexec a t i ff st r st'.

Scheme wexec_mind := Minimality for wexec Sort Prop
  with lexec_mind := Minimality for lexec Sort Prop
  with fexec_mind := Minimality for fexec Sort Prop.
Combined Scheme walk_mutind from wexec_mind, lexec_mind, fexec_mind.

Definition sound (rec : value -> state -> option (result * state)) : Prop :=
  forall c st r st', rec c st = Some (r, st') -> wexec c st r st'.

Lemma field_step_sound rec a t i ff st r st' :
  sound rec ->
  field_step rec a t i ff st = Some (r, st') ->
  fexec a t i ff st r st'.
Proof.
  intros Hrec. unfold field_step.
  destruct (implements (TPtr (Typ ff))) eqn:Hp.
  { intros [= <- <-]. by apply F_value. }
  destruct (implements (Typ ff)) eqn:Hi; simpl.
  2: { intros [= <- <-]. by apply F_skip. }
  destruct (is_ptr (Typ ff)) eqn:Hk; simpl.
  2: { intros [= <- <-]. by apply F_kind. }
  destruct (Anonymous ff) eqn:Ha.
  { intros [= <- <-]. by apply F_anonymous. }
  assert (Hw : wirable ff) by done.
  destruct (visited st !! Typ ff) as [rv|] eqn:Hv.
  { intros [= H]. eapply F_seen; eauto. by rewrite Hv in H. }
  fold (registered a i ff st).
  destruct (Interface _ _) as [c|msg] eqn:Hc.
  2: { intros [= <- <-]. by apply F_interface. }
  destruct (rec c (registered a i ff st)) as [[r2 st2]|] eqn:Hr; [|done].
  apply Hrec in Hr.
  destruct r2.
  - intros [= H]. eapply F_new; eauto.
  - intros [= <- <-]. eapply F_abort; eauto.
  - intros [= <- <-]. eapply F_abort; eauto.
Qed.

Lemma fields_loop_sound rec a t fs : forall pre i st r st',
  sound rec ->
  struct_fields sch t = Some (pre ++ fs) -> length pre = i ->
  fields_loop rec a t fs i st = Some (r, st') ->
  lexec a t fs i st r st'.
Proof.
  induction fs as [|ff rest IH]; intros pre i st r st' Hrec Hfs Hlen; simpl.
  { intros [= <- <-]. apply L_nil. }
  assert (Hd : declared t i ff).
  { exists (pre ++ ff :: rest). split; [done|].
    subst i. by rewrite list_lookup_middle. }
  destruct (field_step rec a t i ff st) as [[r1 st1]|] eqn:Hstep; [|done].
  apply field_step_sound in Hstep; [|done].
  destruct r1.
  - intros Hloop. eapply L_next; eauto.
    apply (IH (pre ++ [ff])); auto.
    + by rewrite <- app_assoc.
    + rewrite length_app. simpl. lia.
  - intros [= <- <-]. by eapply L_abort.
  - intros [= <- <-]. by eapply L_abort.
Qed.

Lemma walker_sound fuel : sound (walker fuel).
Proof.
  induction fuel as [|n IH]; intros c st r st'; [done|].
  simpl. unfold walker_body.
  destruct c as [|a|d|vs].
  - intros [= <- <-]. apply W_nil.
  - destruct (heap st !! a) as [o|] eqn:Ho.
    2: { intros [= <- <-]. by apply W_dangling. }
    destruct (struct_fields sch (otype o)) as [fs|] eqn:Hfs.
    2: { intros [= <- <-]. by eapply W_nonstruct. }
    destruct (fields_loop _ _ _ _ _ _) as [[r1 st1]|] eqn:Hloop; [|done].
    apply (fields_loop_sound _ _ _ _ []) in Hloop; auto.
    destruct r1.
    + intros [= H]. eapply W_visit; eauto.
    + intros [= <- <-]. eapply W_abort; eauto.
    + intros [= <- <-]. eapply W_abort; eauto.
  - intros [= <- <-]. apply W_data.
  - intros [= <- <-]. apply W_struct.
Qed.

(** ** What a run preserves *)

Definition type_at (h : heap_t) (a : addr) : option rtype := otype <$> h !! a.

(** Field [i] of the struct at [a] is declared as [ff]. *)
Definition field_of (h : heap_t) (a : addr) (i : nat) (ff : StructField) : Prop :=
  exists t, type_at h a = Some t /\ declared t i ff.

(** The heap is well typed, as Go's type system has it: a struct has a value
    for each declared field, and a pointer field that is not nil points to an
    object of the type it declares. *)
Definition heap_ok (h : heap_t) : Prop :=
  forall a o i ff, h !! a = Some o -> declared (otype o) i ff ->
    (exists v, ofields o !! i = Some v) /\
    (forall x, is_ptr (Typ ff) = true -> ofields o !! i = Some (VPtr x) ->
       type_at h x = Some (Elem (Typ ff))).

(** An entry of [visited]: the key is a pointer type that implements the
    interface and is the type of a declared field; the value holds a pointer
    to an object of the key's element type; a value that refers to a field
    refers to a field of the key's type. *)
Definition entry_ok (h : heap_t) (t : rtype) (rv : rvalue) : Prop :=
  is_ptr t = true /\ implements t = true /\ t ∈ schema_field_types sch /\
  (exists x, load h rv = VPtr x /\ type_at h x = Some (Elem t)) /\
  match rv with
  | RPtr _ => True
  | RField a i _ => exists ff, field_of h a i ff /\ Typ ff = t
  end.

Definition reg_ok (st : state) : Prop :=
  forall t rv, visited st !! t = Some rv -> entry_ok (heap st) t rv.

Definition inv (st : state) : Prop := heap_ok (heap st) /\ reg_ok st.

(** Field [i] of the struct at [a] holds [x], and [x] is what [visited] has
    for the type of the field. *)
Definition wired (st : state) (a : addr) (i : nat) (x : value) : Prop :=
  exists ff rv, field_of (heap st) a i ff /\ visited st !! Typ ff = Some rv /\
    load (heap st) rv = x /\ field_get (heap st) a i = x.

Record ext (st st' : state) : Prop := mkExt {
  ext_len : length (heap st) <= length (heap st');
  ext_type : forall a t, type_at (heap st) a = Some t -> type_at (heap st') a = Some t;
  ext_visited : visited st ⊆ visited st';
  ext_load : forall t rv, visited st !! t = Some rv ->
    load (heap st') rv = load (heap st) rv;
  ext_fresh : forall a i ff, field_of (heap st') a i ff ->
    is_ptr (Typ ff) = true -> visited st' !! Typ ff = None ->
    field_get (heap st') a i = field_get (heap st) a i;
  ext_slot : forall a i ff rv, field_of (heap st) a i ff ->
    visited st !! Typ ff = Some rv ->
    field_get (heap st') a i = field_get (heap st) a i \/
    field_get (heap st') a i = load (heap st) rv;
  ext_new : forall t rv, visited st !! t = None -> visited st' !! t = Some rv ->
    match rv with
    | RPtr x => length (heap st) <= x
    | RField a i _ => exists ff x, field_of (heap st) a i ff /\ Typ ff = t /\
        is_ptr t = true /\ field_get (heap st) a i = VPtr x /\
        load (heap st') rv = VPtr x
    end;
  ext_trace : exists evs, trace st' = trace st ++ evs /\
    forall a i x, ESet a i x ∈ evs -> wired st' a i x
}.

Lemma type_at_lt h a t : type_at h a = Some t -> a < length h.
Proof.
  unfold type_at. destruct (h !! a) eqn:E; [|done].
  intros _. by eapply lookup_lt_Some.
Qed.

Lemma field_get_unalloc h a i : length h <= a -> field_get h a i = VNil.
Proof.
  intros H. unfold field_get. by rewrite (lookup_ge_None_2 h a).
Qed.

Lemma field_get_ptr_lt h a i x : field_get h a i = VPtr x -> a < length h.
Proof.
  intros H. destruct (decide (a < length h)); [done|].
  rewrite field_get_unalloc in H; [done | lia].
Qed.

Lemma field_get_ptr_type h a i x :
  field_get h a i = VPtr x -> exists t, type_at h a = Some t.
Proof.
  intros H%field_get_ptr_lt. apply lookup_lt_is_Some_2 in H as [o Ho].
  exists (otype o). unfold type_at. by rewrite Ho.
Qed.

Lemma type_at_app h o a t :
  type_at h a = Some t -> type_at (h ++ [o]) a = Some t.
Proof.
  intros H. pose proof (type_at_lt _ _ _ H).
  unfold type_at in *. by rewrite lookup_app_l.
Qed.

Lemma field_get_app h o a i :
  a < length h -> field_get (h ++ [o]) a i = field_get h a i.
Proof. intros H. unfold field_get. by rewrite lookup_app_l. Qed.

Lemma type_at_alter h a i y b :
  type_at (alter (obj_set i y) a h) b = type_at h b.
Proof.
  unfold type_at. destruct (decide (a = b)) as [->|Hne].
  - rewrite list_lookup_alter_eq. by destruct (h !! b).
  - by rewrite list_lookup_alter_ne.
Qed.

Lemma field_get_alter_eq h a i y o v :
  h !! a = Some o -> ofields o !! i = Some v ->
  field_get (alter (obj_set i y) a h) a i = y.
Proof.
  intros Ho Hv. unfold field_get. rewrite list_lookup_alter_eq, Ho. simpl.
  rewrite list_lookup_insert_eq; [done|]. by eapply lookup_lt_Some.
Qed.

Lemma field_get_alter_ne h a i y b j :
  a <> b \/ i <> j ->
  field_get (alter (obj_set i y) a h) b j = field_get h b j.
Proof.
  intros Hne. unfold field_get. destruct (decide (a = b)) as [->|Hab].
  - rewrite list_lookup_alter_eq. destruct (h !! b) as [o|]; [|done]. simpl.
    rewrite list_lookup_insert_ne; [done|]. by destruct Hne.
  - by rewrite list_lookup_alter_ne.
Qed.

Lemma field_of_inj h a i ff ff' :
  field_of h a i ff -> field_of h a i ff' -> ff = ff'.
Proof.
  intros (t & Ht & fs & Hfs & Hi) (t' & Ht' & fs' & Hfs' & Hi').
  congruence.
Qed.

Lemma declared_field_type t i ff :
  declared t i ff -> Typ ff ∈ schema_field_types sch.
Proof.
  intros (fs & Hfs & Hi). destruct t as [n|]; [|done]. simpl in Hfs.
  unfold schema_field_types. apply list_elem_of_bind.
  exists (n, fs). split.
  - simpl. apply list_elem_of_fmap. exists ff. split; [done|].
    by eapply list_elem_of_lookup_2.
  - by apply elem_of_map_to_list.
Qed.

Lemma field_of_ext st st' a i ff :
  ext st st' -> field_of (heap st) a i ff -> field_of (heap st') a i ff.
Proof.
  intros H (t & Ht & Hd). exists t. split; [by apply (ext_type _ _ H) | done].
Qed.

Lemma field_of_ext_back st st' a i ff t0 :
  ext st st' -> type_at (heap st) a = Some t0 ->
  field_of (heap st') a i ff -> field_of (heap st) a i ff.
Proof.
  intros H Ht0 (t & Ht & Hd). exists t. split; [|done].
  pose proof (ext_type _ _ H _ _ Ht0). congruence.
Qed.

Lemma wired_ext st st' a i x : ext st st' -> wired st a i x -> wired st' a i x.
Proof.
  intros H (ff & rv & Hfo & Hv & Hl & Hg). exists ff, rv.
  split; [by eapply field_of_ext|].
  split; [by eapply lookup_weaken, ext_visited|].
  split; [by erewrite ext_load|].
  destruct (ext_slot _ _ H a i ff rv Hfo Hv) as [E|E]; congruence.
Qed.

Lemma ext_same st st' evs :
  heap st' = heap st -> visited st' = visited st ->
  trace st' = trace st ++ evs ->
  (forall a i x, ESet a i x ∉ evs) ->
  ext st st'.
Proof.
  intros Hh Hv Ht Hevs. split; rewrite ?Hh, ?Hv; auto.
  - intros t rv Hn Hs. congruence.
  - exists evs. split; [done|]. intros a i x Hin. by destruct (Hevs a i x).
Qed.

Lemma ext_refl st : ext st st.
Proof.
  apply (ext_same st st []); auto using app_nil_r.
  intros a i x. apply not_elem_of_nil.
Qed.

Lemma ext_trans st1 st2 st3 : ext st1 st2 -> ext st2 st3 -> ext st1 st3.
Proof.
  intros H12 H23. split.
  - pose proof (ext_len _ _ H12). pose proof (ext_len _ _ H23). lia.
  - intros a t Ht. by apply (ext_type _ _ H23), (ext_type _ _ H12).
  - etransitivity; [apply (ext_visited _ _ H12) | apply (ext_visited _ _ H23)].
  - intros t rv Hv. rewrite (ext_load _ _ H23 t rv).
    + by apply (ext_load _ _ H12 t).
    + by eapply lookup_weaken, ext_visited.
  - intros a i ff Hfo Hp Hn.
    rewrite (ext_fresh _ _ H23 a i ff Hfo Hp Hn).
    assert (Hn2 : visited st2 !! Typ ff = None).
    { destruct (visited st2 !! Typ ff) as [rv|] eqn:E; [|done].
      eapply lookup_weaken in E; [|apply (ext_visited _ _ H23)]. congruence. }
    destruct (decide (a < length (heap st2))) as [Hlt|Hge].
    + apply lookup_lt_is_Some_2 in Hlt as [o Ho].
      apply (ext_fresh _ _ H12 a i ff); auto.
      eapply (field_of_ext_back st2 st3); eauto.
      unfold type_at. by rewrite Ho.
    + pose proof (ext_len _ _ H12).
      rewrite !field_get_unalloc; [done | lia | lia].
  - intros a i ff rv Hfo Hv.
    assert (Hfo2 : field_of (heap st2) a i ff) by (by eapply field_of_ext).
    assert (Hv2 : visited st2 !! Typ ff = Some rv)
      by (by eapply lookup_weaken, ext_visited).
    destruct (ext_slot _ _ H12 a i ff rv Hfo Hv) as [E1|E1];
      destruct (ext_slot _ _ H23 a i ff rv Hfo2 Hv2) as [E2|E2];
      rewrite ?(ext_load _ _ H12 _ _ Hv) in E2; rewrite E2; auto.
  - intros t rv Hn Hv.
    destruct (visited st2 !! t) as [rv2|] eqn:E2.
    + assert (rv2 = rv) as ->.
      { eapply lookup_weaken in E2; [|apply (ext_visited _ _ H23)]. congruence. }
      pose proof (ext_new _ _ H12 t rv Hn E2) as Hnew.
      destruct rv as [x|a i ro]; [done|].
      destruct Hnew as (ff & x & ? & ? & ? & ? & Hl). exists ff, x.
      repeat (split; [done|]). by rewrite (ext_load _ _ H23 _ _ E2).
    + pose proof (ext_new _ _ H23 t rv E2 Hv) as Hnew.
      destruct rv as [x|a i ro].
      { pose proof (ext_len _ _ H12). lia. }
      destruct Hnew as (ff & x & Hfo & HT & Hp & Hg & Hl). exists ff, x.
      assert (Hg1 : field_get (heap st1) a i = VPtr x).
      { rewrite <- Hg. symmetry.
        apply (ext_fresh _ _ H12 a i ff); auto; congruence. }
      split; [|done].
      destruct (field_get_ptr_type _ _ _ _ Hg1) as [t1 Ht1].
      by eapply field_of_ext_back.
  - destruct (ext_trace _ _ H12) as (e1 & Ht1 & Hw1).
    destruct (ext_trace _ _ H23) as (e2 & Ht2 & Hw2).
    exists (e1 ++ e2). split; [by rewrite Ht2, Ht1, app_assoc|].
    intros a i x [Hin|Hin]%elem_of_app; [|by auto].
    by eapply wired_ext; eauto.
Qed.

(** *** The steps of the walker *)

Lemma zero_value_ptr n t : is_ptr t = true -> zero_value sch n t = VNil.
Proof. destruct t; [done|]. by destruct n. Qed.

Lemma field_of_app h o a i ff :
  field_of h a i ff -> field_of (h ++ [o]) a i ff.
Proof. intros (t & Ht & Hd). exists t. split; [by apply type_at_app | done]. Qed.

Lemma field_of_field_type h a i ff :
  field_of h a i ff -> Typ ff ∈ schema_field_types sch.
Proof. intros (t & _ & Hd). by eapply declared_field_type. Qed.

Lemma field_of_lt h a i ff : field_of h a i ff -> a < length h.
Proof. intros (t & Ht & _). by eapply type_at_lt. Qed.

Lemma entry_ok_app h o t rv : entry_ok h t rv -> entry_ok (h ++ [o]) t rv.
Proof.
  intros (Hp & Hi & Hin & (x & Hl & Hx) & Hf).
  repeat (split; [done|]). split.
  - exists x. split; [|by apply type_at_app].
    destruct rv as [y|a i ro]; [done|]. simpl in *.
    destruct Hf as (ff & Hfo & _). rewrite field_get_app; [done|].
    by eapply field_of_lt.
  - destruct rv as [y|a i ro]; [done|].
    destruct Hf as (ff & Hfo & HT). exists ff. split; [|done].
    by apply field_of_app.
Qed.

Lemma type_at_new h o : type_at (h ++ [o]) (length h) = Some (otype o).
Proof. unfold type_at. by rewrite list_lookup_middle. Qed.

Lemma field_get_zero h t a i ff :
  field_of (h ++ [zero_obj sch t]) a i ff -> length h <= a ->
  is_ptr (Typ ff) = true ->
  field_get (h ++ [zero_obj sch t]) a i = VNil.
Proof.
  intros (t' & Ht & fs & Hfs & Hi) Hge Hp.
  pose proof (type_at_lt _ _ _ Ht) as Hlt. rewrite length_app in Hlt.
  simpl in Hlt. assert (a = length h) as -> by lia.
  rewrite type_at_new in Ht. simpl in Ht. injection Ht as <-.
  unfold field_get. rewrite list_lookup_middle; [|done]. simpl.
  unfold zero_obj. simpl. rewrite Hfs, list_lookup_fmap, Hi. simpl.
  by apply zero_value_ptr.
Qed.

Lemma alloc_ext ft st :
  inv st -> visited st !! ft = None ->
  is_ptr ft = true -> implements ft = true -> ft ∈ schema_field_types sch ->
  let st1 := register ft (RPtr (length (heap st))) (alloc (Elem ft) st) in
  inv st1 /\ ext st st1.
Proof.
  intros [Hh Hr] Hn Hp Hi Hin st1. split; [split|].
  - intros a o i ff Ho Hd. simpl in Ho.
    apply lookup_app_Some in Ho as [Ho|[Hlen Ho]].
    + destruct (Hh a o i ff Ho Hd) as [Hv Hx]. split; [done|].
      intros x Hpf Hf. by apply type_at_app, Hx.
    + apply list_lookup_singleton_Some in Ho as [_ <-].
      destruct Hd as (fs & Hfs & Hl). simpl in Hfs. unfold zero_obj. simpl.
      rewrite Hfs, list_lookup_fmap, Hl. simpl. split; [by eexists|].
      intros x Hpf. by rewrite zero_value_ptr.
  - intros t rv Hv. simpl in Hv.
    apply lookup_insert_Some in Hv as [(<- & <-)|(Hne & Hv)].
    + repeat (split; [done|]). split; [|done].
      exists (length (heap st)). split; [done|]. apply type_at_new.
    + by apply entry_ok_app, Hr.
  - split; simpl.
    + rewrite length_app. lia.
    + intros a t. apply type_at_app.
    + by apply insert_subseteq.
    + intros t rv Hv. destruct rv as [x|a i ro]; [done|]. simpl.
      destruct (Hr t _ Hv) as (_ & _ & _ & _ & ff & Hfo & _).
      apply field_get_app. by eapply field_of_lt.
    + intros a i ff Hfo Hpf _.
      destruct (decide (a < length (heap st))) as [Hlt|Hge].
      * by apply field_get_app.
      * rewrite (field_get_zero _ _ _ _ ff); auto; [|lia].
        symmetry. apply field_get_unalloc. lia.
    + intros a i ff rv Hfo _. left. apply field_get_app. by eapply field_of_lt.
    + intros t rv Hn' Hv.
      apply lookup_insert_Some in Hv as [(<- & <-)|(Hne & Hv)]; [done|congruence].
    + exists []. split; [by rewrite app_nil_r|].
      intros a i x Hin'. by apply elem_of_nil in Hin'.
Qed.

Lemma field_get_Some h a i x o :
  h !! a = Some o -> field_get h a i = VPtr x -> ofields o !! i = Some (VPtr x).
Proof.
  intros Ho. unfold field_get. rewrite Ho. simpl.
  by destruct (ofields o !! i) as [v|]; simpl; [intros ->|].
Qed.

Lemma heap_ok_target h a i ff x :
  heap_ok h -> field_of h a i ff -> is_ptr (Typ ff) = true ->
  field_get h a i = VPtr x -> type_at h x = Some (Elem (Typ ff)).
Proof.
  intros Hh (t & Ht & Hd) Hp Hg. unfold type_at in Ht.
  destruct (h !! a) as [o|] eqn:Ho; [|done]. injection Ht as <-.
  destruct (Hh a o i ff Ho Hd) as [_ Hx]. apply Hx; [done|].
  by eapply field_get_Some.
Qed.

Lemma regfield_ext a i ro ff x st :
  inv st -> field_of (heap st) a i ff -> wirable ff ->
  visited st !! Typ ff = None -> field_get (heap st) a i = VPtr x ->
  let st1 := register (Typ ff) (RField a i ro) st in
  inv st1 /\ ext st st1.
Proof.
  intros [Hh Hr] Hfo (_ & Hi & Hp & _) Hn Hg st1. split; [split|].
  - done.
  - intros t rv Hv. simpl in Hv.
    apply lookup_insert_Some in Hv as [(<- & <-)|(Hne & Hv)]; [|by apply Hr].
    repeat (split; [done|]). split; [by eapply field_of_field_type|].
    split; [|by exists ff]. exists x. split; [done|].
    by eapply heap_ok_target.
  - split; simpl; auto.
    + by apply insert_subseteq.
    + intros t rv Hn' Hv.
      apply lookup_insert_Some in Hv as [(<- & <-)|(Hne & Hv)]; [|congruence].
      by exists ff, x.
    + exists []. split; [by rewrite app_nil_r|].
      intros b j y Hin'. by apply elem_of_nil in Hin'.
Qed.

Lemma registered_ext a i ff st :
  inv st -> field_of (heap st) a i ff -> wirable ff ->
  visited st !! Typ ff = None ->
  inv (registered a i ff st) /\ ext st (registered a i ff st).
Proof.
  intros Hinv Hfo Hw Hn. unfold registered, IsNil. simpl.
  destruct (field_get (heap st) a i) as [|x|d|vs] eqn:Hg;
    try (destruct Hw as (_ & ? & ? & _); apply alloc_ext; auto;
         by eapply field_of_field_type).
  by eapply regfield_ext.
Qed.

Lemma field_of_slot h a i ff :
  heap_ok h -> field_of h a i ff ->
  exists o v, h !! a = Some o /\ ofields o !! i = Some v.
Proof.
  intros Hh (t & Ht & Hd). unfold type_at in Ht.
  destruct (h !! a) as [o|] eqn:Ho; [|done]. injection Ht as <-.
  destruct (Hh a o i ff Ho Hd) as [[v Hv] _]. by exists o, v.
Qed.

Lemma field_of_alter h a i y b j ff :
  field_of (alter (obj_set i y) a h) b j ff <-> field_of h b j ff.
Proof. unfold field_of. by setoid_rewrite type_at_alter. Qed.

(** Writing to a field what [visited] has for its type changes no value
    that [visited] holds. *)
Lemma load_set st a i ff rv t' rv' :
  inv st -> field_of (heap st) a i ff ->
  visited st !! Typ ff = Some rv -> visited st !! t' = Some rv' ->
  load (alter (obj_set i (load (heap st) rv)) a (heap st)) rv' =
  load (heap st) rv'.
Proof.
  intros [Hh Hr] Hfo Hv Hv'. destruct rv' as [x|b j ro]; [done|]. simpl.
  destruct (decide (a = b /\ i = j)) as [[<- <-]|Hne].
  - destruct (Hr _ _ Hv') as (_ & _ & _ & _ & ff' & Hfo' & HT).
    assert (ff' = ff) as -> by (by eapply field_of_inj).
    assert (rv = RField a i ro) as -> by congruence.
    destruct (field_of_slot _ _ _ _ Hh Hfo) as (o & v & Ho & Hs).
    by erewrite field_get_alter_eq.
  - apply field_get_alter_ne.
    destruct (decide (a = b)); [right|left]; naive_solver.
Qed.

Lemma Set_ext a i ro ff st rv r st' :
  inv st -> field_of (heap st) a i ff -> visited st !! Typ ff = Some rv ->
  Set_ a i ro (Some rv) st = (r, st') ->
  inv st' /\ ext st st'.
Proof.
  intros Hinv Hfo Hv. unfold Set_.
  destruct ro. { intros [= <- <-]. split; [done | apply ext_refl]. }
  destruct (is_ro rv). { intros [= <- <-]. split; [done | apply ext_refl]. }
  intros [= <- <-].
  assert (Hload : forall t' rv', visited st !! t' = Some rv' ->
    load (alter (obj_set i (load (heap st) rv)) a (heap st)) rv' =
    load (heap st) rv') by (intros; by eapply load_set).
  destruct Hinv as [Hh Hr].
  destruct (Hr _ _ Hv) as (Hp & Hi & Hin & (x & Hl & Hx) & _).
  destruct (field_of_slot _ _ _ _ Hh Hfo) as (o & v & Ho & Hs).
  assert (Hget : field_get (alter (obj_set i (load (heap st) rv)) a (heap st)) a i
                 = load (heap st) rv) by (by erewrite field_get_alter_eq).
  split; [split|].
  - intros b o' j ff' Ho' Hd. simpl in Ho' |- *.
    destruct (decide (a = b)) as [<-|Hab].
    + rewrite list_lookup_alter_eq, Ho in Ho'. injection Ho' as <-. simpl in *.
      destruct (Hh a o j ff' Ho Hd) as [[v' Hv'] Hx'].
      destruct (decide (i = j)) as [<-|Hij].
      * rewrite list_lookup_insert_eq by (by eapply lookup_lt_Some).
        split; [by eexists|]. intros x' Hp' [= E].
        rewrite type_at_alter.
        assert (ff' = ff) as ->.
        { eapply field_of_inj; [|exact Hfo]. exists (otype o). split; [|done].
          unfold type_at. by rewrite Ho. }
        congruence.
      * rewrite list_lookup_insert_ne by done.
        split; [by eexists|]. intros x' Hp' E. rewrite type_at_alter. by apply Hx'.
    + rewrite list_lookup_alter_ne in Ho' by done.
      destruct (Hh b o' j ff' Ho' Hd) as [Hv' Hx']. split; [done|].
      intros x' Hp' E. rewrite type_at_alter. by apply Hx'.
  - intros t' rv' Hv'. simpl in *.
    destruct (Hr _ _ Hv') as (Hp' & Hi' & Hin' & (x' & Hl' & Hx') & Hf').
    repeat (split; [done|]). split.
    + exists x'. rewrite type_at_alter. split; [|done].
      by rewrite (Hload t' rv').
    + destruct rv' as [?|b j ro']; [done|].
      destruct Hf' as (ff' & ? & ?). exists ff'. split; [|done].
      by apply field_of_alter.
  - split; simpl.
    + by rewrite length_alter.
    + intros b t. by rewrite type_at_alter.
    + done.
    + intros t' rv' Hv'. by apply (Hload t').
    + intros b j ff' Hfo' _ Hn. apply field_get_alter_ne.
      apply field_of_alter in Hfo'.
      destruct (decide (a = b)) as [<-|]; [|by left].
      destruct (decide (i = j)) as [<-|]; [|by right].
      assert (ff' = ff) as -> by (by eapply field_of_inj). congruence.
    + intros b j ff' rv' Hfo' Hv'.
      destruct (decide (a = b /\ i = j)) as [[<- <-]|Hne].
      * right. assert (ff' = ff) as -> by (by eapply field_of_inj).
        rewrite Hget. congruence.
      * left. apply field_get_alter_ne.
        destruct (decide (a = b)); [right|left]; naive_solver.
    + intros t' rv' Hn Hv'. congruence.
    + eexists. split; [done|]. intros b j y [= -> -> ->]%list_elem_of_singleton.
      exists ff, rv. simpl. split; [by apply field_of_alter|].
      split; [done|]. split; [|done]. by apply (Hload (Typ ff)).
Qed.

Lemma call_fn_ext a st r st' :
  inv st -> call_fn a st = (r, st') -> inv st' /\ ext st st'.
Proof.
  intros Hinv. unfold call_fn. destruct (fn a (heap st) (vstate st)) as [e vs].
  intros [= <- <-]. split; [done|].
  eapply ext_same; simpl; eauto.
  intros b j y [=]%list_elem_of_singleton.
Qed.

Lemma registered_lookup a i ff st :
  is_Some (visited (registered a i ff st) !! Typ ff).
Proof.
  unfold registered. destruct (IsNil _ _); simpl; by rewrite lookup_insert_eq.
Qed.

Lemma type_at_Some h a o : h !! a = Some o -> type_at h a = Some (otype o).
Proof. intros H. unfold type_at. by rewrite H. Qed.

(** Every run keeps the invariant and extends the state. *)
Lemma walk_flat :
  (forall c st r st', wexec c st r st' -> inv st -> inv st' /\ ext st st') /\
  (forall a t fs i st r st', lexec a t fs i st r st' ->
     type_at (heap st) a = Some t -> inv st -> inv st' /\ ext st st') /\
  (forall a t i ff st r st', fexec a t i ff st r st' ->
     field_of (heap st) a i ff -> inv st -> inv st' /\ ext st st').
Proof.
  apply walk_mutind; try (by (intros; split; [|apply ext_refl])).
  - (* W_abort *)
    intros a o fs st r st' Ho Hfs _ IH _ Hinv.
    apply IH; [by apply type_at_Some | done].
  - (* W_visit *)
    intros a o fs st st1 r st' Ho Hfs _ IH Hfn Hinv.
    destruct IH as [Hi1 He1]; [by apply type_at_Some | done |].
    destruct (call_fn_ext _ _ _ _ Hi1 Hfn) as [Hi2 He2].
    split; [done | by eapply ext_trans].
  - (* L_abort *)
    intros a t ff rest i st r st' Hd _ IH _ Ht Hinv.
    apply IH; [by exists t | done].
  - (* L_next *)
    intros a t ff rest i st st1 r st' Hd _ IHf _ IHl Ht Hinv.
    destruct IHf as [Hi1 He1]; [by exists t | done |].
    destruct IHl as [Hi2 He2]; [by apply (ext_type _ _ He1) | done |].
    split; [done | by eapply ext_trans].
  - (* F_seen *)
    intros a t i ff st rv r st' _ Hv HS Hfo Hinv. by eapply Set_ext.
  - (* F_interface *)
    intros a t i ff st msg Hw Hn _ Hfo Hinv. by apply registered_ext.
  - (* F_abort *)
    intros a t i ff st c r st' Hw Hn _ _ IH _ Hfo Hinv.
    destruct (registered_ext a i ff st) as [Hi1 He1]; auto.
    destruct IH as [Hi2 He2]; [done|].
    split; [done | by eapply ext_trans].
  - (* F_new *)
    intros a t i ff st c st2 r st' Hw Hn _ _ IH HS Hfo Hinv.
    destruct (registered_ext a i ff st) as [Hi1 He1]; auto.
    destruct IH as [Hi2 He2]; [done|].
    destruct (registered_lookup a i ff st) as [rv Hrv].
    eapply lookup_weaken in Hrv; [|apply (ext_visited _ _ He2)].
    rewrite Hrv in HS.
    pose proof (ext_trans _ _ _ He1 He2) as He.
    destruct (Set_ext _ _ _ ff _ _ _ _ Hi2 (field_of_ext _ _ _ _ _ He Hfo) Hrv HS)
      as [Hi3 He3].
    split; [done | by eapply ext_trans].
Qed.

(** ** The visits of a run *)

(** The structs the visitor was called on, in order. *)
Definition visits (evs : list event) : list addr :=
  omap (fun ev => match ev with EVisit a _ => Some a | ESet _ _ _ => None end) evs.

(** The checks of the loop body that a field passes when the body returns
    normally. *)
Definition valid_field (ff : StructField) : bool :=
  negb (implements (TPtr (Typ ff))) &&
  (negb (implements (Typ ff)) ||
   (is_ptr (Typ ff) && negb (Anonymous ff) && is_exported ff)).

(** [x] is the instance that [visited] has for the type [t]. *)
Definition canon (st : state) (t : rtype) (x : addr) : Prop :=
  exists rv, visited st !! t = Some rv /\ load (heap st) rv = VPtr x.

(** The struct at [b] is fully wired: every field passes the checks, and
    every field of a type that implements the interface holds the instance
    of its type. *)
Definition node_ok (st : state) (b : addr) : Prop :=
  (exists t, type_at (heap st) b = Some t) /\
  forall i ff, field_of (heap st) b i ff ->
    valid_field ff = true /\
    (implements (Typ ff) = true -> exists x, wired st b i (VPtr x)).

(** [ps] lists the types that were registered between [st] and [st'], each
    once, with the instance of each. *)
Definition linked (st st' : state) (ps : list (rtype * addr)) : Prop :=
  NoDup ps.*1 /\
  (forall t, t ∈ ps.*1 <-> visited st !! t = None /\ is_Some (visited st' !! t)) /\
  Forall (fun p => canon st' p.1 p.2) ps.

Lemma visits_app e1 e2 : visits (e1 ++ e2) = visits e1 ++ visits e2.
Proof. apply omap_app. Qed.

Lemma canon_ext st st' t x : ext st st' -> canon st t x -> canon st' t x.
Proof.
  intros H (rv & Hv & Hl). exists rv. split.
  - by eapply lookup_weaken, ext_visited.
  - by rewrite (ext_load _ _ H t rv).
Qed.

Lemma node_ok_ext st st' b : ext st st' -> node_ok st b -> node_ok st' b.
Proof.
  intros H [[t Ht] Hn]. split; [exists t; by apply (ext_type _ _ H)|].
  intros i ff Hfo. eapply field_of_ext_back in Hfo; eauto.
  destruct (Hn i ff Hfo) as [Hv Hw]. split; [done|].
  intros Hi. destruct (Hw Hi) as [x Hx]. exists x. by eapply wired_ext.
Qed.

Lemma linked_nil st st' : visited st' = visited st -> linked st st' [].
Proof.
  intros Hv. split; [constructor|]. split; [|constructor].
  intros t. simpl. rewrite elem_of_nil, Hv. split; [done|].
  intros [Hn [rv Hs]]. congruence.
Qed.

Lemma linked_same st st1 st2 ps :
  linked st st1 ps -> ext st1 st2 -> visited st2 = visited st1 ->
  linked st st2 ps.
Proof.
  intros (Hnd & Hin & Hc) He Hv. split; [done|]. split.
  - intros t. by rewrite Hv.
  - eapply Forall_impl; [exact Hc|]. intros [t x]. by apply canon_ext.
Qed.

Lemma linked_app st st1 st2 p1 p2 :
  linked st st1 p1 -> linked st1 st2 p2 -> ext st st1 -> ext st1 st2 ->
  linked st st2 (p1 ++ p2).
Proof.
  intros (Hnd1 & Hin1 & Hc1) (Hnd2 & Hin2 & Hc2) He1 He2.
  split; [|split].
  - rewrite fmap_app. apply NoDup_app. split; [done|]. split; [|done].
    intros t [_ [rv Hs]]%Hin1 [Hn _]%Hin2. congruence.
  - intros t. rewrite fmap_app, elem_of_app, Hin1, Hin2. split.
    + intros [[Hn [rv Hs]]|[Hn Hs]].
      * split; [done|]. exists rv. by eapply lookup_weaken, ext_visited.
      * split; [|done].
        destruct (visited st !! t) as [rv|] eqn:E; [|done].
        eapply lookup_weaken in E; [|apply (ext_visited _ _ He1)]. congruence.
    + intros [Hn Hs]. destruct (visited st1 !! t) as [rv|] eqn:E; eauto.
  - apply Forall_app. split; [|done].
    eapply Forall_impl; [exact Hc1|]. intros [t x]. by apply canon_ext.
Qed.

Lemma linked_perm st st' ps ps' :
  ps ≡ₚ ps' -> linked st st' ps -> linked st st' ps'.
Proof.
  intros Hp (Hnd & Hin & Hc). split; [|split].
  - by rewrite <- Hp.
  - intros t. by rewrite <- Hp.
  - by rewrite <- Hp.
Qed.

Lemma registered_trace a i ff st : trace (registered a i ff st) = trace st.
Proof. unfold registered. by destruct (IsNil _ _). Qed.

Lemma registered_visited a i ff st :
  exists rv, visited (registered a i ff st) = <[Typ ff := rv]> (visited st).
Proof. unfold registered. destruct (IsNil _ _); by eexists. Qed.

Lemma Set_inv a i ro x st r st' :
  Set_ a i ro x st = (r, st') ->
  (r = Ok /\ ro = false /\ exists rv, x = Some rv /\
     visited st' = visited st /\
     trace st' = trace st ++ [ESet a i (load (heap st) rv)]) \/
  (exists msg, r = Panic msg /\ st' = st).
Proof.
  unfold Set_. destruct ro; [intros [= <- <-]; right; by eexists|].
  destruct x as [rv|]; [|intros [= <- <-]; right; by eexists].
  destruct (is_ro rv); [intros [= <- <-]; right; by eexists|].
  intros [= <- <-]. left. repeat (split; [done|]). by exists rv.
Qed.

(** The events [evs] were added, and every struct visited in them is fully
    wired. *)
Definition visited_ok (st st' : state) (evs : list event) : Prop :=
  trace st' = trace st ++ evs /\ forall b, b ∈ visits evs -> node_ok st' b.

(** The loop body is done with field [i] of the struct at [a]. *)
Definition field_done (st : state) (a : addr) (i : nat) (ff : StructField) : Prop :=
  valid_field ff = true /\
  (implements (Typ ff) = true -> exists x, wired st a i (VPtr x)).

Lemma visited_ok_nil st : visited_ok st st [].
Proof. split; [by rewrite app_nil_r|]. by intros b ?%elem_of_nil. Qed.

Lemma visited_ok_app st st1 st2 e1 e2 :
  visited_ok st st1 e1 -> visited_ok st1 st2 e2 -> ext st1 st2 ->
  visited_ok st st2 (e1 ++ e2).
Proof.
  intros [Ht1 Hn1] [Ht2 Hn2] He. split; [by rewrite Ht2, Ht1, app_assoc|].
  intros b. rewrite visits_app, elem_of_app. intros [Hb|Hb]; [|by auto].
  eapply node_ok_ext; eauto.
Qed.

Lemma field_done_ext st st' a i ff :
  ext st st' -> field_done st a i ff -> field_done st' a i ff.
Proof.
  intros He [Hv Hw]. split; [done|]. intros Hi.
  destruct (Hw Hi) as [x Hx]. exists x. by eapply wired_ext.
Qed.

Lemma Set_done a i ff st r st' :
  inv st -> field_of (heap st) a i ff -> wirable ff ->
  is_Some (visited st !! Typ ff) ->
  Set_ a i (negb (is_exported ff)) (visited st !! Typ ff) st = (r, st') ->
  inv st' /\ ext st st' /\ visited st' = visited st /\
  (exists evs, trace st' = trace st ++ evs /\ visits evs = []) /\
  (r = Ok -> field_done st' a i ff).
Proof.
  intros Hinv Hfo Hw [rv Hv] HS. rewrite Hv in HS.
  destruct (Set_ext _ _ _ _ _ _ _ _ Hinv Hfo Hv HS) as [Hinv' He].
  repeat (split; [done|]).
  destruct (Set_inv _ _ _ _ _ _ _ HS)
    as [(-> & Hro & rv' & [= <-] & Hvis & Htr)|(msg & -> & ->)].
  2: { split; [done|]. split; [|done]. exists []. by rewrite app_nil_r. }
  split; [done|]. split; [by eexists|]. intros _.
  destruct Hw as (Hp & Hi & Hk & Ha). split.
  - unfold valid_field. rewrite Hp, Hi, Hk, Ha. simpl.
    by destruct (is_exported ff).
  - intros _. destruct Hinv as [_ Hr].
    destruct (Hr _ _ Hv) as (_ & _ & _ & (x & Hl & _) & _).
    exists x. rewrite <- Hl.
    destruct (ext_trace _ _ He) as (evs & Htr' & Hwd).
    rewrite Htr in Htr'. apply app_inv_head in Htr' as <-.
    apply Hwd. by apply list_elem_of_singleton.
Qed.

Lemma registered_linked a i ff st x :
  visited st !! Typ ff = None ->
  Interface (heap (registered a i ff st))
    (visited (registered a i ff st) !! Typ ff) = inl (VPtr x) ->
  linked st (registered a i ff st) [(Typ ff, x)].
Proof.
  intros Hn Hc. destruct (registered_visited a i ff st) as [rv Hrv].
  split; [|split].
  - apply NoDup_singleton.
  - intros t. simpl. rewrite list_elem_of_singleton, Hrv. split.
    + intros ->. split; [done|]. by rewrite lookup_insert_eq.
    + intros [Hn' [rv' Hs]].
      apply lookup_insert_Some in Hs as [[? _]|[_ ?]]; congruence.
  - constructor; [|constructor]. simpl. unfold Interface in Hc.
    destruct (visited (registered a i ff st) !! Typ ff) as [rv'|] eqn:E; [|done].
    destruct (is_ro rv'); [done|]. injection Hc as Hc. by exists rv'.
Qed.

(** Every struct the visitor is called on is fully wired at that moment and
    stays so; a call of the walker that returns normally visits the instance
    of each type it registered, each once, and then the struct it was
    called on. *)
Lemma walk_struct :
  (forall c st r st', wexec c st r st' -> inv st ->
     exists evs, visited_ok st st' evs /\
       (r = Ok -> exists a ps, c = VPtr a /\
          visits evs = ps.*2 ++ [a] /\ linked st st' ps)) /\
  (forall a t fs i st r st', lexec a t fs i st r st' ->
     type_at (heap st) a = Some t -> inv st ->
     exists evs, visited_ok st st' evs /\
       (r = Ok ->
          (forall k ff, fs !! k = Some ff -> field_done st' a (i + k) ff) /\
          exists ps, visits evs = ps.*2 /\ linked st st' ps)) /\
  (forall a t i ff st r st', fexec a t i ff st r st' ->
     field_of (heap st) a i ff -> inv st ->
     exists evs, visited_ok st st' evs /\
       (r = Ok -> field_done st' a i ff /\
          exists ps, visits evs = ps.*2 /\ linked st st' ps)).
Proof.
  destruct walk_flat as (Wflat & Lflat & Fflat).
  apply walk_mutind;
    try (by (intros; exists []; split; [apply visited_ok_nil | done])).
  - (* W_abort *)
    intros a o fs st r st' Ho Hfs _ IH Hne Hinv.
    destruct IH as (evs & Hok & _); [by apply type_at_Some | done |].
    exists evs. split; [done|]. by intros ->.
  - (* W_visit *)
    intros a o fs st st1 r st' Ho Hfs Hl IH Hfn Hinv.
    pose proof (type_at_Some _ _ _ Ho) as Ht.
    destruct (Lflat _ _ _ _ _ _ _ Hl Ht Hinv) as [Hinv1 He1].
    destruct (call_fn_ext _ _ _ _ Hinv1 Hfn) as [Hinv' He'].
    destruct IH as (evs & Hok & HOk); [done | done |].
    destruct HOk as (Hdone & ps & Hvs & Hlk); [done|].
    unfold call_fn in Hfn.
    destruct (fn a (heap st1) (vstate st1)) as [e vs] eqn:Hfn'.
    injection Hfn as <- <-.
    exists (evs ++ [EVisit a e]). split.
    + apply (visited_ok_app _ st1); [done | | by subst].
      split; [done|]. simpl. intros b ->%list_elem_of_singleton.
      split; [exists (otype o); by apply (ext_type _ _ He1)|].
      simpl. intros i ff (t' & Ht' & fs' & Hfs' & Hi).
      pose proof (ext_type _ _ He1 _ _ Ht) as Ht1.
      assert (t' = otype o) as -> by congruence.
      assert (fs' = fs) as -> by congruence.
      eapply (field_done_ext st1); [done|]. by apply (Hdone i).
    + intros _. exists a, ps. split; [done|].
      split; [by rewrite visits_app, Hvs|].
      by eapply linked_same.
  - (* L_nil *)
    intros a t i st Ht Hinv. exists []. split; [apply visited_ok_nil|].
    intros _. split; [by intros k ff ?|].
    exists []. split; [done | by apply linked_nil].
  - (* L_abort *)
    intros a t ff rest i st r st' Hd _ IH Hne Ht Hinv.
    destruct IH as (evs & Hok & _); [by exists t | done |].
    exists evs. split; [done|]. by intros ->.
  - (* L_next *)
    intros a t ff rest i st st1 r st' Hd Hf IHf Hl IHl Ht Hinv.
    assert (Hfo : field_of (heap st) a i ff) by (by exists t).
    destruct (Fflat _ _ _ _ _ _ _ Hf Hfo Hinv) as [Hinv1 He1].
    pose proof (ext_type _ _ He1 _ _ Ht) as Ht1.
    destruct (Lflat _ _ _ _ _ _ _ Hl Ht1 Hinv1) as [Hinv' He'].
    destruct IHf as (e1 & Hok1 & HOk1); [done | done |].
    destruct HOk1 as (Hd1 & ps1 & Hvs1 & Hlk1); [done|].
    destruct IHl as (e2 & Hok2 & HOk2); [done | done |].
    exists (e1 ++ e2). split; [by eapply visited_ok_app|].
    intros ->. destruct HOk2 as (Hd2 & ps2 & Hvs2 & Hlk2); [done|].
    split.
    + intros [|k] ff' Hk; simpl in Hk.
      * injection Hk as <-. rewrite Nat.add_0_r. by eapply field_done_ext.
      * rewrite Nat.add_succ_r. by apply (Hd2 k).
    + exists (ps1 ++ ps2). split; [by rewrite visits_app, fmap_app, Hvs1, Hvs2|].
      by eapply linked_app.
  - (* F_skip *)
    intros a t i ff st Hp Hi Hfo Hinv. exists []. split; [apply visited_ok_nil|].
    intros _. split.
    + split; [|congruence]. unfold valid_field. by rewrite Hp, Hi.
    + exists []. split; [done | by apply linked_nil].
  - (* F_seen *)
    intros a t i ff st rv r st' Hw Hv HS Hfo Hinv.
    rewrite <- Hv in HS.
    destruct (Set_done _ _ _ _ _ _ Hinv Hfo Hw (mk_is_Some _ _ Hv) HS)
      as (Hinv' & He & Hvis & (evs & Htr & Hvs) & Hdone).
    exists evs. split.
    + split; [done|]. rewrite Hvs. by intros b ?%elem_of_nil.
    + intros HOk. split; [by apply Hdone|].
      exists []. split; [done | by apply linked_nil].
  - (* F_interface *)
    intros a t i ff st msg Hw Hn Hc Hfo Hinv. exists []. split; [|done].
    split; [by rewrite registered_trace, app_nil_r|]. by intros b ?%elem_of_nil.
  - (* F_abort *)
    intros a t i ff st c r st' Hw Hn Hc _ IH Hne Hfo Hinv.
    destruct (registered_ext a i ff st) as [Hinv1 He1]; auto.
    destruct IH as (evs & [Htr Hok] & _); [done|].
    exists evs. split; [|by intros ->].
    split; [by rewrite Htr, registered_trace | done].
  - (* F_new *)
    intros a t i ff st c st2 r st' Hw Hn Hc Hwx IH HS Hfo Hinv.
    destruct (registered_ext a i ff st) as [Hinv1 He1]; auto.
    destruct (Wflat _ _ _ _ Hwx Hinv1) as [Hinv2 He2].
    destruct IH as (e2 & [Htr2 Hok2] & HOk2); [done|].
    destruct HOk2 as (x & ps & -> & Hvs2 & Hlk2); [done|].
    pose proof (ext_trans _ _ _ He1 He2) as He12.
    assert (Hs2 : is_Some (visited st2 !! Typ ff)).
    { destruct (registered_lookup a i ff st) as [rv Hrv]. exists rv.
      by eapply lookup_weaken, ext_visited. }
    destruct (Set_done _ _ _ _ _ _ Hinv2 (field_of_ext _ _ _ _ _ He12 Hfo) Hw Hs2 HS)
      as (Hinv' & He & Hvis & (evs & Htr & Hvs) & Hdone).
    exists (e2 ++ evs). split.
    + split; [by rewrite Htr, Htr2, registered_trace, app_assoc|].
      intros b. rewrite visits_app, Hvs, app_nil_r. intros Hb.
      eapply node_ok_ext; eauto.
    + intros HOk. split; [by apply Hdone|].
      exists (ps ++ [(Typ ff, x)]). split.
      { by rewrite visits_app, Hvs, app_nil_r, fmap_app. }
      eapply linked_same; [|exact He|exact Hvis].
      eapply linked_perm; [|eapply (linked_app st (registered a i ff st) st2
        [(Typ ff, x)] ps); eauto using registered_linked].
      symmetry. apply Permutation_app_comm.
Qed.

(** ** Errors of the visitor *)

(** No call of the visitor in [evs] returned an error. *)
Definition quiet (evs : list event) : Prop :=
  forall a e, EVisit a (Some e) ∉ evs.

(** The events of a run that returned [r]: the visitor returned an error
    only in the last event of a run that returns that error. *)
Definition err_last (r : result) (evs : list event) : Prop :=
  match r with
  | Err e => exists evs0 a, evs = evs0 ++ [EVisit a (Some e)] /\ quiet evs0
  | _ => quiet evs
  end.

Lemma quiet_nil : quiet [].
Proof. intros a e. apply not_elem_of_nil. Qed.

Lemma quiet_app e1 e2 : quiet e1 -> quiet e2 -> quiet (e1 ++ e2).
Proof. intros H1 H2 a e [?|?]%elem_of_app; [by eapply H1 | by eapply H2]. Qed.

Lemma err_last_app r e1 e2 : quiet e1 -> err_last r e2 -> err_last r (e1 ++ e2).
Proof.
  intros H1. destruct r as [|e|msg]; simpl; [by apply quiet_app | | by apply quiet_app].
  intros (evs0 & a & -> & H0). exists (e1 ++ evs0), a.
  split; [by rewrite app_assoc | by apply quiet_app].
Qed.

Lemma Set_quiet a i ro x st r st' :
  Set_ a i ro x st = (r, st') ->
  exists evs, trace st' = trace st ++ evs /\ quiet evs /\ err_last r evs.
Proof.
  intros [(-> & _ & rv & _ & _ & Htr)|(msg & -> & ->)]%Set_inv.
  - eexists. split; [done|].
    assert (quiet [ESet a i (load (heap st) rv)]) by
      (by intros b e [=]%list_elem_of_singleton).
    done.
  - exists []. rewrite app_nil_r. split; [done|]. split; apply quiet_nil.
Qed.

Lemma walk_errors :
  (forall c st r st', wexec c st r st' ->
     exists evs, trace st' = trace st ++ evs /\ err_last r evs) /\
  (forall a t fs i st r st', lexec a t fs i st r st' ->
     exists evs, trace st' = trace st ++ evs /\ err_last r evs) /\
  (forall a t i ff st r st', fexec a t i ff st r st' ->
     exists evs, trace st' = trace st ++ evs /\ err_last r evs).
Proof.
  apply walk_mutind;
    try (by (intros; exists []; split; [by rewrite app_nil_r | apply quiet_nil])).
  - (* W_abort *) by intros.
  - (* W_visit *)
    intros a o fs st st1 r st' _ _ _ (e1 & Ht1 & Hq1) Hfn.
    unfold call_fn in Hfn. destruct (fn a (heap st1) (vstate st1)) as [e vs].
    injection Hfn as <- <-. exists (e1 ++ [EVisit a e]). simpl.
    split; [by rewrite Ht1, app_assoc|]. simpl in Hq1.
    destruct e as [e|]; simpl.
    + by exists e1, a.
    + apply quiet_app; [done|]. by intros b e' [=]%list_elem_of_singleton.
  - (* L_abort *) by intros.
  - (* L_next *)
    intros a t ff rest i st st1 r st' _ _ (e1 & Ht1 & Hq1) _ (e2 & Ht2 & Hq2).
    exists (e1 ++ e2). split; [by rewrite Ht2, Ht1, app_assoc|].
    by apply err_last_app.
  - (* F_seen *)
    intros a t i ff st rv r st' _ _ HS.
    destruct (Set_quiet _ _ _ _ _ _ _ HS) as (evs & ? & _ & ?). by exists evs.
  - (* F_interface *)
    intros a t i ff st msg _ _ _. exists [].
    split; [by rewrite registered_trace, app_nil_r | apply quiet_nil].
  - (* F_abort *)
    intros a t i ff st c r st' _ _ _ _ (evs & Ht & Hq) _. exists evs.
    split; [by rewrite Ht, registered_trace | done].
  - (* F_new *)
    intros a t i ff st c st2 r st' _ _ _ _ (e1 & Ht1 & Hq1) HS.
    destruct (Set_quiet _ _ _ _ _ _ _ HS) as (e2 & Ht2 & _ & Hq2).
    exists (e1 ++ e2). split; [by rewrite Ht2, Ht1, registered_trace, app_assoc|].
    by apply err_last_app.
Qed.

(** ** Frame: what the walker leaves alone *)

(** Between [st] and [st'] the structs keep their type, and their fields of
    a type that does not implement the interface keep their value. *)
Definition frame (st st' : state) : Prop :=
  forall b o, heap st !! b = Some o ->
    exists o', heap st' !! b = Some o' /\ otype o' = otype o /\
      forall j ff, declared (otype o) j ff -> implements (Typ ff) = false ->
        ofields o' !! j = ofields o !! j.

Lemma frame_same st st' : heap st' = heap st -> frame st st'.
Proof. intros Hh b o Ho. exists o. by rewrite Hh. Qed.

Lemma frame_refl st : frame st st.
Proof. by apply frame_same. Qed.

Lemma frame_trans st1 st2 st3 : frame st1 st2 -> frame st2 st3 -> frame st1 st3.
Proof.
  intros H12 H23 b o Ho.
  destruct (H12 b o Ho) as (o2 & Ho2 & Ht2 & Hf2).
  destruct (H23 b o2 Ho2) as (o3 & Ho3 & Ht3 & Hf3).
  exists o3. split; [done|]. split; [congruence|].
  intros j ff Hd Hi. rewrite (Hf3 j ff), (Hf2 j ff); auto. by rewrite Ht2.
Qed.

Lemma registered_frame a i ff st : frame st (registered a i ff st).
Proof.
  intros b o Ho. exists o. split; [|done].
  unfold registered. destruct (IsNil _ _); simpl; [|done].
  by apply lookup_app_l_Some.
Qed.

Lemma Set_frame a i t ff x st r st' :
  type_at (heap st) a = Some t -> declared t i ff ->
  implements (Typ ff) = true ->
  Set_ a i (negb (is_exported ff)) x st = (r, st') ->
  frame st st'.
Proof.
  intros Ht Hd Hi. unfold Set_.
  destruct (negb _); [intros [= <- <-]; apply frame_refl|].
  destruct x as [rv|]; [|intros [= <- <-]; apply frame_refl].
  destruct (is_ro rv); [intros [= <- <-]; apply frame_refl|].
  intros [= <- <-] b o Ho. simpl.
  destruct (decide (a = b)) as [<-|Hne].
  - rewrite list_lookup_alter_eq, Ho. simpl. eexists. split; [done|].
    split; [done|]. simpl. intros j ff' Hd' Hi'.
    apply list_lookup_insert_ne. intros <-.
    rewrite (type_at_Some _ _ _ Ho) in Ht. injection Ht as <-.
    destruct Hd as (fs & Hfs & Hl), Hd' as (fs' & Hfs' & Hl'). congruence.
  - rewrite list_lookup_alter_ne by done. by exists o.
Qed.

Lemma frame_type st st' a t :
  frame st st' -> type_at (heap st) a = Some t -> type_at (heap st') a = Some t.
Proof.
  intros Hf Ht. unfold type_at in *.
  destruct (heap st !! a) as [o|] eqn:Ho; [|done].
  destruct (Hf a o Ho) as (o' & -> & Ht' & _). simpl in *. congruence.
Qed.

Lemma walk_frame :
  (forall c st r st', wexec c st r st' -> frame st st') /\
  (forall a t fs i st r st', lexec a t fs i st r st' ->
     type_at (heap st) a = Some t -> frame st st') /\
  (forall a t i ff st r st', fexec a t i ff st r st' ->
     type_at (heap st) a = Some t -> declared t i ff -> frame st st').
Proof.
  apply walk_mutind; try (by (intros; apply frame_refl)).
  - (* W_abort *)
    intros a o fs st r st' Ho _ _ IH _. by apply IH, type_at_Some.
  - (* W_visit *)
    intros a o fs st st1 r st' Ho _ _ IH Hfn.
    eapply frame_trans; [by apply IH, type_at_Some|].
    unfold call_fn in Hfn. destruct (fn _ _ _). injection Hfn as <- <-.
    by apply frame_same.
  - (* L_abort *)
    intros a t ff rest i st r st' Hd _ IH _ Ht. by apply IH.
  - (* L_next *)
    intros a t ff rest i st st1 r st' Hd _ IHf _ IHl Ht.
    eapply frame_trans; [by apply IHf|]. apply IHl. by eapply frame_type; eauto.
  - (* F_seen *)
    intros a t i ff st rv r st' (_ & Hi & _) _ HS Ht Hd. by eapply Set_frame.
  - (* F_interface *)
    intros. apply registered_frame.
  - (* F_abort *)
    intros a t i ff st c r st' _ _ _ _ IH _ _ _.
    eapply frame_trans; [apply registered_frame | done].
  - (* F_new *)
    intros a t i ff st c st2 r st' (_ & Hi & _) _ _ _ IH HS Ht Hd.
    assert (Hf2 : frame st st2)
      by (eapply frame_trans; [apply registered_frame | done]).
    eapply frame_trans; [done|]. eapply Set_frame; eauto.
    by eapply frame_type.
Qed.

(** Every field the walker set is a declared field of a type that
    implements the interface. *)
Definition sets_ok (st : state) (evs : list event) : Prop :=
  forall a i x, ESet a i x ∈ evs ->
    exists t ff, type_at (heap st) a = Some t /\ declared t i ff /\
      implements (Typ ff) = true.

Lemma sets_ok_frame st st' evs : frame st st' -> sets_ok st evs -> sets_ok st' evs.
Proof.
  intros Hf Hs a i x Hin. destruct (Hs a i x Hin) as (t & ff & Ht & Hd & Hi).
  exists t, ff. split; [by eapply frame_type | done].
Qed.

Lemma sets_ok_app st e1 e2 : sets_ok st e1 -> sets_ok st e2 -> sets_ok st (e1 ++ e2).
Proof. intros H1 H2 a i x [?|?]%elem_of_app; eauto. Qed.

Lemma Set_sets a i t ff x st r st' :
  type_at (heap st) a = Some t -> declared t i ff ->
  implements (Typ ff) = true ->
  Set_ a i (negb (is_exported ff)) x st = (r, st') ->
  exists evs, trace st' = trace st ++ evs /\ sets_ok st' evs.
Proof.
  intros Ht Hd Hi HS. pose proof (Set_frame _ _ _ _ _ _ _ _ Ht Hd Hi HS) as Hf.
  destruct (Set_inv _ _ _ _ _ _ _ HS)
    as [(_ & _ & rv & _ & _ & Htr)|(msg & _ & ->)].
  - eexists. split; [done|]. intros b j y [= -> -> ->]%list_elem_of_singleton.
    exists t, ff. split; [by eapply frame_type | done].
  - exists []. split; [by rewrite app_nil_r|]. by intros b j y ?%elem_of_nil.
Qed.

Lemma walk_sets :
  (forall c st r st', wexec c st r st' ->
     exists evs, trace st' = trace st ++ evs /\ sets_ok st' evs) /\
  (forall a t fs i st r st', lexec a t fs i st r st' ->
     type_at (heap st) a = Some t ->
     exists evs, trace st' = trace st ++ evs /\ sets_ok st' evs) /\
  (forall a t i ff st r st', fexec a t i ff st r st' ->
     type_at (heap st) a = Some t -> declared t i ff ->
     exists evs, trace st' = trace st ++ evs /\ sets_ok st' evs).
Proof.
  destruct walk_frame as (Wframe & Lframe & Fframe).
  assert (Hnil : forall st, exists evs,
    trace st = trace st ++ evs /\ sets_ok st evs).
  { intros st. exists []. split; [by rewrite app_nil_r|].
    by intros b j y ?%elem_of_nil. }
  apply walk_mutind; try (by (intros; apply Hnil)).
  - (* W_abort *)
    intros a o fs st r st' Ho _ _ IH _. by apply IH, type_at_Some.
  - (* W_visit *)
    intros a o fs st st1 r st' Ho _ _ IH Hfn.
    destruct IH as (evs & Htr & Hs); [by apply type_at_Some|].
    unfold call_fn in Hfn. destruct (fn _ _ _) as [e vs].
    injection Hfn as <- <-. exists (evs ++ [EVisit a e]). simpl.
    split; [by rewrite Htr, app_assoc|].
    apply sets_ok_app; [done|]. by intros b j y [=]%list_elem_of_singleton.
  - (* L_abort *)
    intros a t ff rest i st r st' Hd _ IH _ Ht. by apply IH.
  - (* L_next *)
    intros a t ff rest i st st1 r st' Hd Hf IHf Hl IHl Ht.
    destruct IHf as (e1 & Ht1 & Hs1); [done | done |].
    pose proof (frame_type _ _ _ _ (Fframe _ _ _ _ _ _ _ Hf Ht Hd) Ht) as Ht'.
    destruct IHl as (e2 & Ht2 & Hs2); [done|].
    exists (e1 ++ e2). split; [by rewrite Ht2, Ht1, app_assoc|].
    apply sets_ok_app; [|done]. eapply sets_ok_frame; [|exact Hs1].
    by eapply Lframe.
  - (* F_seen *)
    intros a t i ff st rv r st' (_ & Hi & _) _ HS Ht Hd. by eapply Set_sets.
  - (* F_interface *)
    intros a t i ff st msg _ _ _ _ _. exists [].
    split; [by rewrite registered_trace, app_nil_r|].
    by intros b j y ?%elem_of_nil.
  - (* F_abort *)
    intros a t i ff st c r st' _ _ _ _ (evs & Htr & Hs) _ _ _. exists evs.
    split; [by rewrite Htr, registered_trace | done].
  - (* F_new *)
    intros a t i ff st c st2 r st' (_ & Hi & _) _ _ Hwx (e1 & Ht1 & Hs1) HS Ht Hd.
    assert (Ht2 : type_at (heap st2) a = Some t).
    { eapply frame_type; [by eapply Wframe|].
      eapply frame_type; [apply registered_frame | done]. }
    destruct (Set_sets _ _ _ _ _ _ _ _ Ht2 Hd Hi HS) as (e2 & Htr2 & Hs2).
    exists (e1 ++ e2). split; [by rewrite Htr2, Ht1, registered_trace, app_assoc|].
    apply sets_ok_app; [|done]. eapply sets_ok_frame; [|exact Hs1].
    by eapply Set_frame.
Qed.

(** ** Termination *)

Lemma Set_visited a i ro x st r st' :
  Set_ a i ro x st = (r, st') -> visited st' = visited st.
Proof.
  intros [(_ & _ & _ & _ & ? & _)|(_ & _ & ->)]%Set_inv; done.
Qed.

(** [visited] only grows. *)
Lemma walk_mono :
  (forall c st r st', wexec c st r st' -> visited st ⊆ visited st') /\
  (forall a t fs i st r st', lexec a t fs i st r st' -> visited st ⊆ visited st') /\
  (forall a t i ff st r st', fexec a t i ff st r st' -> visited st ⊆ visited st').
Proof.
  assert (Hreg : forall a i ff st, visited st !! Typ ff = None ->
    visited st ⊆ visited (registered a i ff st)).
  { intros a i ff st Hn. destruct (registered_visited a i ff st) as [rv ->].
    by apply insert_subseteq. }
  apply walk_mutind; try done.
  - (* W_visit *)
    intros a o fs st st1 r st' _ _ _ IH Hfn.
    unfold call_fn in Hfn. destruct (fn _ _ _). by injection Hfn as <- <-.
  - (* L_next *)
    intros. by etransitivity.
  - (* F_seen *)
    intros a t i ff st rv r st' _ _ HS. by rewrite (Set_visited _ _ _ _ _ _ _ HS).
  - (* F_interface *)
    intros. by apply Hreg.
  - (* F_abort *)
    intros. etransitivity; [by apply Hreg | done].
  - (* F_new *)
    intros a t i ff st c st2 r st' _ Hn _ _ IH HS.
    rewrite (Set_visited _ _ _ _ _ _ _ HS).
    etransitivity; [by apply Hreg | done].
Qed.

(** The field types of the schema that are not yet a key of [visited]:
    every recursive call of the walker takes one away. *)
Definition field_types : gset rtype := list_to_set (schema_field_types sch).

Definition todo (st : state) : nat := size (field_types ∖ dom (visited st)).

Definition total_below (n : nat)
    (rec : value -> state -> option (result * state)) : Prop :=
  forall c st, todo st < n -> is_Some (rec c st).

Lemma todo_mono st st' : visited st ⊆ visited st' -> todo st' <= todo st.
Proof.
  intros H. unfold todo. apply subseteq_size.
  apply subseteq_dom in H. set_solver.
Qed.

Lemma registered_todo a i ff st :
  Typ ff ∈ field_types -> visited st !! Typ ff = None ->
  todo (registered a i ff st) < todo st.
Proof.
  intros Hin Hn. destruct (registered_visited a i ff st) as [rv Hrv].
  unfold todo. rewrite Hrv, dom_insert_L. apply subset_size.
  apply not_elem_of_dom in Hn. set_solver.
Qed.

Lemma field_step_total n rec a t i ff st :
  total_below n rec -> Typ ff ∈ field_types -> todo st <= n ->
  is_Some (field_step rec a t i ff st).
Proof.
  intros Hrec Hin Hn. unfold field_step.
  destruct (implements (TPtr (Typ ff))); [done|].
  destruct (implements (Typ ff)); simpl; [|done].
  destruct (is_ptr (Typ ff)); simpl; [|done].
  destruct (Anonymous ff); [done|].
  destruct (visited st !! Typ ff) as [rv|] eqn:Hv; [done|].
  fold (registered a i ff st).
  destruct (Interface _ _) as [c|msg]; [|done].
  destruct (Hrec c (registered a i ff st)) as [[r st2] ->].
  { pose proof (registered_todo a i ff st Hin Hv). lia. }
  by destruct r.
Qed.

Lemma fields_loop_total n rec a t fs : forall i st,
  sound rec -> total_below n rec ->
  (forall ff, ff ∈ fs -> Typ ff ∈ field_types) -> todo st <= n ->
  is_Some (fields_loop rec a t fs i st).
Proof.
  induction fs as [|ff rest IH]; intros i st Hs Hrec Hin Hn; simpl; [done|].
  destruct (field_step_total n rec a t i ff st) as [[r st1] Hstep]; auto.
  { apply Hin, elem_of_cons. by left. }
  rewrite Hstep. destruct r; [|done|done].
  apply IH; auto.
  - intros ff' Hff'. apply Hin, elem_of_cons. by right.
  - apply field_step_sound in Hstep; [|done].
    apply walk_mono in Hstep. apply todo_mono in Hstep. lia.
Qed.

Lemma struct_fields_types t fs ff :
  struct_fields sch t = Some fs -> ff ∈ fs -> Typ ff ∈ field_types.
Proof.
  intros Hfs [i Hi]%list_elem_of_lookup. apply elem_of_list_to_set.
  apply (declared_field_type t i ff). by exists fs.
Qed.

(** With more fuel than field types left, the walker returns. *)
Lemma walker_total n : total_below n (walker n).
Proof.
  induction n as [|n IH]; intros c st Hn; [lia|].
  simpl. unfold walker_body. destruct c as [|a|d|vs]; try done.
  destruct (heap st !! a) as [o|]; [|done].
  destruct (struct_fields sch (otype o)) as [fs|] eqn:Hfs; [|done].
  destruct (fields_loop_total n (walker n) a (otype o) fs 0 st)
    as [[r st1] ->]; auto using walker_sound.
  - intros ff. by apply (struct_fields_types (otype o)).
  - lia.
  - by destruct r.
Qed.

(** More fuel does not change what the walker returns. *)
Definition refines (rec rec' : value -> state -> option (result * state)) : Prop :=
  forall c st x, rec c st = Some x -> rec' c st = Some x.

Lemma field_step_refines rec rec' a t i ff st x :
  refines rec rec' ->
  field_step rec a t i ff st = Some x -> field_step rec' a t i ff st = Some x.
Proof.
  intros Hr. unfold field_step.
  destruct (implements (TPtr (Typ ff))); [done|].
  destruct (implements (Typ ff)); simpl; [|done].
  destruct (is_ptr (Typ ff)); simpl; [|done].
  destruct (Anonymous ff); [done|].
  destruct (visited st !! Typ ff) as [rv|]; [done|].
  destruct (Interface _ _) as [c|msg]; [|done].
  destruct (rec c _) as [y|] eqn:E; [|done].
  by rewrite (Hr _ _ _ E).
Qed.

Lemma fields_loop_refines rec rec' a t fs : forall i st x,
  refines rec rec' ->
  fields_loop rec a t fs i st = Some x -> fields_loop rec' a t fs i st = Some x.
Proof.
  induction fs as [|ff rest IH]; intros i st x Hr; simpl; [done|].
  destruct (field_step rec a t i ff st) as [y|] eqn:E; [|done].
  rewrite (field_step_refines _ _ _ _ _ _ _ _ Hr E).
  destruct y as [[] st1]; auto.
Qed.

Lemma walker_S n : refines (walker n) (walker (S n)).
Proof.
  induction n as [|n IH]; intros c st x; [done|].
  change (walker_body (walker n) c st = Some x ->
          walker_body (walker (S n)) c st = Some x).
  unfold walker_body. destruct c as [|a|d|vs]; try done.
  destruct (heap st !! a) as [o|]; [|done].
  destruct (struct_fields sch (otype o)) as [fs|]; [|done].
  destruct (fields_loop (walker n) _ _ _ _ _) as [y|] eqn:E; [|done].
  by rewrite (fields_loop_refines _ _ _ _ _ _ _ _ IH E).
Qed.

Lemma walker_le n m : n <= m -> refines (walker n) (walker m).
Proof.
  induction 1 as [|m _ IH]; intros c st x H; [done|].
  by apply walker_S, IH.
Qed.

Lemma size_list_to_set_le (l : list rtype) :
  size (list_to_set (C:=gset rtype) l) <= length l.
Proof.
  induction l as [|t l IH].
  - by rewrite list_to_set_nil, size_empty.
  - rewrite list_to_set_cons, size_union_alt, size_singleton. simpl.
    assert (size (list_to_set (C:=gset rtype) l ∖ {[t]}) <=
            size (list_to_set (C:=gset rtype) l))
      by (apply subseteq_size; set_solver).
    lia.
Qed.

Lemma todo_init h vs : todo (init_state h vs) <= length (schema_field_types sch).
Proof.
  unfold todo. etransitivity; [|apply size_list_to_set_le].
  apply subseteq_size. set_solver.
Qed.

(** ** Runs of [Walk] *)

(** The heap the caller passes is well typed: the check of [heap_ok]. *)
Definition value_wt (h : heap_t) (t : rtype) (v : value) : bool :=
  match t, v with
  | TPtr e, VPtr x => bool_decide (type_at h x = Some e)
  | TPtr _, VNil => true
  | TPtr _, _ => false
  | TNamed _, _ => true
  end.

Definition obj_wt (h : heap_t) (o : obj) : bool :=
  match struct_fields sch (otype o) with
  | Some fs =>
      bool_decide (length (ofields o) = length fs) &&
      forallb (fun p => value_wt h (Typ p.1) p.2) (zip fs (ofields o))
  | None => true
  end.

Definition heap_wt (h : heap_t) : bool := forallb (obj_wt h) h.

Lemma heap_wt_ok h : heap_wt h = true -> heap_ok h.
Proof.
  intros Hwt a o i ff Ho (fs & Hfs & Hi).
  unfold heap_wt in Hwt. rewrite forallb_forall in Hwt.
  pose proof (Hwt o) as Hobj. unfold obj_wt in Hobj. rewrite Hfs in Hobj.
  apply andb_prop in Hobj as [Hlen Hall].
  2: { apply list_elem_of_In. by eapply list_elem_of_lookup_2. }
  apply bool_decide_eq_true in Hlen.
  destruct (lookup_lt_is_Some_2 (ofields o) i) as [v Hv].
  { rewrite Hlen. by eapply lookup_lt_Some. }
  split; [by exists v|]. intros x Hp Hx.
  rewrite forallb_forall in Hall. specialize (Hall (ff, v)). simpl in Hall.
  destruct (Typ ff) as [|e]; [done|]. simpl.
  assert (v = VPtr x) as -> by congruence.
  assert (Hw : value_wt h (TPtr e) (VPtr x) = true).
  { apply Hall, list_elem_of_In, list_elem_of_lookup. exists i.
    apply lookup_zip_with_Some. by exists ff, (VPtr x). }
  simpl in Hw. by apply bool_decide_eq_true in Hw.
Qed.

Lemma inv_init h vs : heap_wt h = true -> inv (init_state h vs).
Proof. intros H. split; [by apply heap_wt_ok|]. intros t rv. by simpl. Qed.

Lemma Walk_wexec c h vs r st' :
  Walk c h vs = Some (r, st') -> wexec c (init_state h vs) r st'.
Proof. apply walker_sound. Qed.

(** [Walk] returns, and more fuel changes nothing. *)
Lemma Walk_total c h vs :
  exists x, Walk c h vs = Some x /\
    forall fuel, length (schema_field_types sch) < fuel ->
      walker fuel c (init_state h vs) = Some x.
Proof.
  destruct (walker_total (S (length (schema_field_types sch))) c (init_state h vs))
    as [x Hx].
  { pose proof (todo_init h vs). lia. }
  exists x. split; [done|]. intros fuel Hf.
  eapply walker_le; [|exact Hx]. lia.
Qed.

(** What a run of [Walk] on a well-typed heap establishes. *)
Lemma Walk_facts c h vs r st' :
  heap_wt h = true -> Walk c h vs = Some (r, st') ->
  inv st' /\ ext (init_state h vs) st' /\
  (forall b, b ∈ visits (trace st') -> node_ok st' b) /\
  err_last r (trace st') /\
  (r = Ok -> exists a ps, c = VPtr a /\ visits (trace st') = ps.*2 ++ [a] /\
     linked (init_state h vs) st' ps).
Proof.
  intros Hwt HW. apply Walk_wexec in HW. pose proof (inv_init h vs Hwt) as Hinv.
  destruct (proj1 walk_flat _ _ _ _ HW Hinv) as [Hinv' He].
  destruct (proj1 walk_struct _ _ _ _ HW Hinv) as (evs & [Htr Hn] & HOk).
  destruct (proj1 walk_errors _ _ _ _ HW) as (evs' & Htr' & Herr).
  simpl in Htr, Htr'. subst evs evs'.
  do 3 (split; [done|]). by split.
Qed.

(** The number of structs of type [T] among [l]. *)
Definition visits_of_type (h : heap_t) (T : rtype) (l : list addr) : nat :=
  length (filter (fun x => type_at h x = Some T) l).

Lemma visits_of_type_linked h T (ps : list (rtype * addr)) :
  NoDup ps.*1 ->
  Forall (fun p => is_ptr p.1 = true /\ type_at h p.2 = Some (Elem p.1)) ps ->
  visits_of_type h T ps.*2 = if decide (TPtr T ∈ ps.*1) then 1 else 0.
Proof.
  unfold visits_of_type.
  induction ps as [|[t x] ps IH]; intros Hnd Hall.
  { rewrite decide_False by (rewrite fmap_nil; apply not_elem_of_nil). done. }
  rewrite !fmap_cons in *. simpl in *.
  apply NoDup_cons in Hnd as [Hnin Hnd].
  apply Forall_cons in Hall as [[Hp Hx] Hall]. simpl in *.
  specialize (IH Hnd Hall). rewrite filter_cons.
  destruct t as [n|e]; [done|]. simpl in Hx.
  destruct (decide (type_at h x = Some T)) as [Heq|Hne].
  - assert (e = T) as -> by congruence. simpl. rewrite IH.
    rewrite decide_False by done. rewrite decide_True; [done|].
    apply elem_of_cons. by left.
  - rewrite IH. destruct (decide (TPtr T ∈ ps.*1)) as [Hin|Hnin'].
    + rewrite decide_True; [done|]. apply elem_of_cons. by right.
    + rewrite decide_False; [done|]. intros [Heq|?]%elem_of_cons; [|done].
      injection Heq as ->. congruence.
Qed.

Lemma canon_inj st t x y : canon st t x -> canon st t y -> x = y.
Proof. intros (rv & Hv & Hl) (rv' & Hv' & Hl'). congruence. Qed.

(** After [Walk], the instance of a registered type is one of the pairs of
    the run. *)
Lemma canon_linked h vs st' ps t x :
  linked (init_state h vs) st' ps -> canon st' t x -> (t, x) ∈ ps.
Proof.
  intros (_ & Hin & Hc) Hx.
  assert (Ht : t ∈ ps.*1).
  { apply Hin. split; [done|]. destruct Hx as (rv & Hv & _). by exists rv. }
  apply list_elem_of_fmap in Ht as ([t' x'] & -> & Hp). simpl in *.
  rewrite Forall_forall in Hc. pose proof (Hc _ Hp) as Hx'. simpl in Hx'.
  by rewrite (canon_inj _ _ _ _ Hx Hx').
Qed.

Lemma wired_canon st a i ff x :
  wired st a i (VPtr x) -> field_of (heap st) a i ff ->
  field_get (heap st) a i = VPtr x /\ canon st (Typ ff) x.
Proof.
  intros (ff' & rv & Hfo' & Hv & Hl & Hg) Hfo. split; [done|].
  rewrite (field_of_inj _ _ _ _ _ Hfo Hfo'). by exists rv.
Qed.

(** *** The struct types a walk reaches *)

(** The struct types the walker gets to from a root of type [T0]: the type
    of the root, and the element type of every field (of a type reached)
    whose type implements the interface. *)
Inductive reach (T0 : rtype) : rtype -> Prop :=
| reach_root : reach T0 T0
| reach_field T i ff :
    reach T0 T -> declared T i ff -> implements (Typ ff) = true ->
    reach T0 (Elem (Typ ff)).

(** A walk that completes visits a struct of every type it reaches. *)
Lemma Walk_reach root h vs st' T0 T :
  heap_wt h = true ->
  Walk (VPtr root) h vs = Some (Ok, st') ->
  type_at h root = Some T0 -> reach T0 T ->
  exists b, b ∈ visits (trace st') /\ type_at (heap st') b = Some T.
Proof.
  intros Hwt HW HT0 Hreach.
  destruct (Walk_facts _ _ _ _ _ Hwt HW) as ([_ Hr] & He & Hn & _ & HOk).
  destruct HOk as (root' & ps & [= <-] & Hvs & Hlk); [done|].
  induction Hreach as [|T i ff _ IH Hd Hi].
  - exists root. split; [|by apply (ext_type _ _ He)].
    rewrite Hvs. apply elem_of_app. right. by apply list_elem_of_singleton.
  - destruct IH as (b & Hb & HTb).
    destruct (Hn b Hb) as [_ Hnb].
    destruct (Hnb i ff) as [_ Hw]; [by exists T|].
    destruct (Hw Hi) as [x Hx].
    destruct (wired_canon _ b i ff x Hx) as [_ Hc]; [by exists T|].
    exists x. split.
    + rewrite Hvs. apply elem_of_app. left. apply list_elem_of_fmap.
      exists (Typ ff, x). split; [done|]. by eapply canon_linked.
    + destruct Hc as (rv & Hv & Hl).
      destruct (Hr _ _ Hv) as (_ & _ & _ & (x' & Hl' & Hx') & _). congruence.
Qed.

(** The visitor is only called on structs all of whose fields pass the
    checks. *)
Lemma visited_valid c h vs r st' b T i ff :
  heap_wt h = true -> Walk c h vs = Some (r, st') ->
  b ∈ visits (trace st') -> type_at (heap st') b = Some T ->
  declared T i ff -> valid_field ff = true.
Proof.
  intros Hwt HW Hb HT Hd.
  destruct (Walk_facts _ _ _ _ _ Hwt HW) as (_ & _ & Hn & _).
  destruct (Hn b Hb) as [_ Hnb]. destruct (Hnb i ff) as [Hv _]; [by exists T|done].
Qed.

(** A walk that reaches a struct type with a field that fails the checks
    does not complete; an error it returns is an error of the visitor; and
    the visitor is not called on a struct of that type. *)
Lemma invalid_field_rejected root h vs T0 T i ff r st' :
  heap_wt h = true -> type_at h root = Some T0 -> reach T0 T ->
  declared T i ff -> valid_field ff = false ->
  Walk (VPtr root) h vs = Some (r, st') ->
  r <> Ok /\
  (forall e, r = Err e -> exists evs a, trace st' = evs ++ [EVisit a (Some e)]) /\
  (forall b, b ∈ visits (trace st') -> type_at (heap st') b <> Some T).
Proof.
  intros Hwt HT0 Hreach Hd Hinv HW. split; [|split].
  - intros ->.
    destruct (Walk_reach _ _ _ _ _ _ Hwt HW HT0 Hreach) as (b & Hb & HTb).
    pose proof (visited_valid _ _ _ _ _ _ _ _ _ Hwt HW Hb HTb Hd). congruence.
  - intros e ->. apply Walk_wexec in HW.
    destruct (proj1 walk_errors _ _ _ _ HW) as (evs & Htr & evs0 & a & -> & _).
    by exists evs0, a.
  - intros b Hb HTb.
    pose proof (visited_valid _ _ _ _ _ _ _ _ _ Hwt HW Hb HTb Hd). congruence.
Qed.

(** *** The first fields of the root *)

(** A field the loop body skips. *)
Definition ordinary (ff : StructField) : Prop :=
  implements (Typ ff) = false /\ implements (TPtr (Typ ff)) = false.

Lemma fields_loop_skip rec a t pre : forall rest i st,
  Forall ordinary pre ->
  fields_loop rec a t (pre ++ rest) i st =
  fields_loop rec a t rest (i + length pre) st.
Proof.
  induction pre as [|ff pre IH]; intros rest i st Hall; simpl.
  { by rewrite Nat.add_0_r. }
  apply Forall_cons in Hall as [[Hi Hp] Hall].
  unfold field_step at 1. rewrite Hp, Hi. simpl.
  rewrite IH by done. f_equal. lia.
Qed.

(** [Walk] on a root whose fields before field [i] are skipped. *)
Lemma Walk_root_prefix root h vs o fs i ff :
  h !! root = Some o -> struct_fields sch (otype o) = Some fs ->
  fs !! i = Some ff ->
  (forall j ffj, j < i -> fs !! j = Some ffj -> ordinary ffj) ->
  Walk (VPtr root) h vs =
  match fields_loop (walker (length (schema_field_types sch))) root (otype o)
          (ff :: drop (S i) fs) i (init_state h vs) with
  | Some (Ok, st1) => Some (call_fn root st1)
  | other => other
  end.
Proof.
  intros Ho Hfs Hi Hpre. unfold Walk. simpl walker. unfold walker_body.
  simpl heap. rewrite Ho, Hfs.
  rewrite <- (take_drop_middle fs i ff Hi) at 1.
  rewrite fields_loop_skip.
  - rewrite length_take, Nat.min_l; [done|].
    apply lookup_lt_Some in Hi. lia.
  - apply Forall_lookup. intros j ffj [Hj Hlt]%lookup_take_Some. by eapply Hpre.
Qed.

(** When the loop body panics on field [i] of the root without looking at
    the state, and the fields before it are skipped, [Walk] panics before
    it changed anything. *)
Lemma Walk_root_panic root h vs o fs i ff msg :
  h !! root = Some o -> struct_fields sch (otype o) = Some fs ->
  fs !! i = Some ff ->
  (forall j ffj, j < i -> fs !! j = Some ffj -> ordinary ffj) ->
  (forall rec a st, field_step rec a (otype o) i ff st = Some (Panic msg, st)) ->
  Walk (VPtr root) h vs = Some (Panic msg, init_state h vs).
Proof.
  intros Ho Hfs Hi Hpre Hstep.
  rewrite (Walk_root_prefix _ _ _ _ _ _ _ Ho Hfs Hi Hpre). simpl.
  by rewrite Hstep.
Qed.

(** *** The first field of a type *)

(** What the walker registers for the type of field [i] of the struct at
    [a]: what the field points to, or a new object when the field is nil. *)
Lemma registered_canon a i ff st c :
  Interface (heap (registered a i ff st))
    (visited (registered a i ff st) !! Typ ff) = inl c ->
  exists y, c = VPtr y /\ canon (registered a i ff st) (Typ ff) y /\
    match field_get (heap st) a i with
    | VPtr x => y = x
    | _ => y = length (heap st)
    end.
Proof.
  unfold registered, IsNil. simpl load.
  destruct (field_get (heap st) a i) as [|x|d|vs] eqn:Hg; simpl;
    rewrite lookup_insert_eq; simpl;
    try (intros [= <-]; exists (length (heap st)); split; [done|]; split; [|done];
         eexists; split; [apply lookup_insert_eq | done]).
  destruct (negb (is_exported ff)); [done|]. rewrite Hg.
  intros [= <-]. exists x. split; [done|]. split; [|done].
  eexists. split; [apply lookup_insert_eq|]. done.
Qed.

(** The loop body on the first field of a type: the instance of the type
    is what the field pointed to, or the new object when it was nil. *)
Lemma fexec_first a t i ff st st' :
  fexec a t i ff st Ok st' -> inv st -> field_of (heap st) a i ff ->
  visited st !! Typ ff = None -> implements (Typ ff) = true ->
  exists y, canon st' (Typ ff) y /\
    match field_get (heap st) a i with
    | VPtr x => y = x
    | _ => y = length (heap st)
    end.
Proof.
  intros Hf Hinv Hfo Hn Hi.
  inversion Hf as [| | | | ??????? Hw Hv | | ??????? Hw _ _ _ Hne
                  | ???? st0 c st2 r0 st0' Hw _ Hc Hwx HS]; subst;
    try congruence.
  destruct (registered_ext a i ff st) as [Hinv1 He1]; auto.
  destruct (proj1 walk_flat _ _ _ _ Hwx Hinv1) as [Hinv2 He2].
  destruct (registered_canon _ _ _ _ _ Hc) as (y & -> & Hy & Hm).
  exists y. split; [|done].
  assert (Hfo2 : field_of (heap st2) a i ff).
  { eapply field_of_ext; [|exact Hfo]. by eapply ext_trans. }
  destruct (canon_ext _ _ _ _ He2 Hy) as (rv & Hrv & Hl).
  rewrite Hrv in HS.
  destruct (Set_ext _ _ _ _ _ _ _ _ Hinv2 Hfo2 Hrv HS) as [_ He3].
  eapply canon_ext; [exact He3|]. by exists rv.
Qed.

(** [Walk] on a root whose fields before field [i] are skipped, when it
    completes: the loop body for field [i], the rest of the loop, and the
    call of the visitor on the root. *)
Lemma Walk_root_step root h vs o fs i ff st' :
  h !! root = Some o -> struct_fields sch (otype o) = Some fs ->
  fs !! i = Some ff ->
  (forall j ffj, j < i -> fs !! j = Some ffj -> ordinary ffj) ->
  Walk (VPtr root) h vs = Some (Ok, st') ->
  exists st1 st2,
    fexec root (otype o) i ff (init_state h vs) Ok st1 /\
    lexec root (otype o) (drop (S i) fs) (S i) st1 Ok st2 /\
    call_fn root st2 = (Ok, st').
Proof.
  intros Ho Hfs Hi Hpre HW.
  rewrite (Walk_root_prefix _ _ _ _ _ _ _ Ho Hfs Hi Hpre) in HW. simpl in HW.
  destruct (field_step _ _ _ _ _ _) as [[r1 st1]|] eqn:Hstep; [|done].
  apply field_step_sound in Hstep; [|apply walker_sound].
  destruct r1; [|done|done].
  destruct (fields_loop _ _ _ _ _ _) as [[r2 st2]|] eqn:Hloop; [|done].
  apply (fields_loop_sound _ _ _ _ (take (S i) fs)) in Hloop.
  - destruct r2; [|done|done]. injection HW as HW. by exists st1, st2.
  - apply walker_sound.
  - by rewrite take_drop.
  - rewrite length_take, Nat.min_l; [done|]. apply lookup_lt_Some in Hi. lia.
Qed.

(** * The claims *)

(** C1 (sharing invariant).  When [Walk] completes without error on a
    well-typed heap, any two fields of walked structs (the structs the
    visitor was called on, at any depth) whose declared type is the same
    type implementing the interface hold the same pointer: the instance that
    [visited] has for that type, which is itself a walked struct. *)
Theorem sharing_invariant c h vs st' a1 i1 ff1 a2 i2 ff2 :
  heap_wt h = true ->
  Walk c h vs = Some (Ok, st') ->
  a1 ∈ visits (trace st') -> a2 ∈ visits (trace st') ->
  field_of (heap st') a1 i1 ff1 -> field_of (heap st') a2 i2 ff2 ->
  Typ ff1 = Typ ff2 -> implements (Typ ff1) = true ->
  exists x, field_get (heap st') a1 i1 = VPtr x /\
            field_get (heap st') a2 i2 = VPtr x /\
            canon st' (Typ ff1) x /\ x ∈ visits (trace st').
Proof.
  intros Hwt HW Ha1 Ha2 Hf1 Hf2 HT Hi.
  destruct (Walk_facts _ _ _ _ _ Hwt HW) as (_ & _ & Hn & _ & HOk).
  destruct HOk as (a & ps & _ & Hvs & Hlk); [done|].
  destruct (Hn a1 Ha1) as [_ Hn1]. destruct (Hn1 i1 ff1 Hf1) as [_ Hw1].
  destruct (Hn a2 Ha2) as [_ Hn2]. destruct (Hn2 i2 ff2 Hf2) as [_ Hw2].
  destruct Hw1 as [x1 Hw1]; [done|]. destruct Hw2 as [x2 Hw2]; [congruence|].
  destruct (wired_canon _ _ _ _ _ Hw1 Hf1) as [Hg1 Hc1].
  destruct (wired_canon _ _ _ _ _ Hw2 Hf2) as [Hg2 Hc2].
  rewrite <- HT in Hc2. rewrite (canon_inj _ _ _ _ Hc2 Hc1) in Hg2.
  exists x1. do 3 (split; [done|]).
  rewrite Hvs. apply elem_of_app. left.
  apply list_elem_of_fmap. exists (Typ ff1, x1). split; [done|].
  by eapply canon_linked.
Qed.

(** C5 (early exit on visitor error).  If a call of the visitor returns an
    error, that call is the last thing [Walk] does (no struct is visited and
    no field is set after it) and [Walk] returns that error. *)
Theorem early_exit_on_visitor_error c h vs r st' k a e :
  Walk c h vs = Some (r, st') ->
  trace st' !! k = Some (EVisit a (Some e)) ->
  r = Err e /\ length (trace st') = S k.
Proof.
  intros HW Hk. apply Walk_wexec in HW.
  destruct (proj1 walk_errors _ _ _ _ HW) as (evs & Htr & Herr).
  simpl in Htr. subst evs.
  assert (Hq : forall l, quiet l -> l !! k = Some (EVisit a (Some e)) -> False).
  { intros l Hl Hlk. by eapply Hl, list_elem_of_lookup_2. }
  destruct r as [|e'|msg]; simpl in Herr; try (by destruct (Hq _ Herr Hk)).
  destruct Herr as (evs0 & a' & Heq & Hq0). rewrite Heq in Hk |- *.
  apply lookup_app_Some in Hk as [Hk|[Hlen Hk]]; [by destruct (Hq _ Hq0 Hk)|].
  apply list_lookup_singleton_Some in Hk as [Hz [= -> ->]].
  split; [done|]. rewrite length_app. simpl. lia.
Qed.

(** C7 (no rollback on visitor error).  When [Walk] returns an error of the
    visitor, every field that was set before still holds what it was set
    to: the instance that [visited] has for the type of the field. *)
Theorem no_rollback_on_visitor_error c h vs e st' a i x :
  heap_wt h = true ->
  Walk c h vs = Some (Err e, st') ->
  ESet a i x ∈ trace st' ->
  field_get (heap st') a i = x /\
  exists ff y, field_of (heap st') a i ff /\ implements (Typ ff) = true /\
    x = VPtr y /\ canon st' (Typ ff) y.
Proof.
  intros Hwt HW Hin.
  destruct (Walk_facts _ _ _ _ _ Hwt HW) as ([_ Hr] & He & _).
  destruct (ext_trace _ _ He) as (evs & Htr & Hw). simpl in Htr. subst evs.
  destruct (Hw a i x Hin) as (ff & rv & Hfo & Hv & Hl & Hg).
  split; [done|].
  destruct (Hr _ _ Hv) as (_ & Hi & _ & (y & Hy & _) & _).
  exists ff, y. do 2 (split; [done|]). split; [congruence|]. by exists rv.
Qed.

(** C8 (termination on cyclic type graphs).  On every schema (a finite
    table of struct types), every heap and every root, [Walk] returns: the
    fuel it starts with is enough, and more fuel gives the same result.  The
    loop body makes no recursive call for a field whose type is already a
    key of [visited]. *)
Theorem Walk_terminates c h vs :
  (exists r st', Walk c h vs = Some (r, st') /\
     forall fuel, length (schema_field_types sch) < fuel ->
       walker fuel c (init_state h vs) = Some (r, st')) /\
  (forall rec rec' a t i ff st, is_Some (visited st !! Typ ff) ->
     field_step rec a t i ff st = field_step rec' a t i ff st).
Proof.
  split.
  - destruct (Walk_total c h vs) as ([r st'] & HW & Hfuel). by exists r, st'.
  - intros rec rec' a t i ff st [rv Hv]. unfold field_step. by rewrite Hv.
Qed.

(** C9 (frame on ordinary fields).  A field whose declared type does not
    implement the interface, and whose pointer type does not either, keeps
    its value through [Walk], whatever [Walk] returns, and the walker never
    sets it; the loop body does nothing for such a field and makes no
    recursive call, whatever the kind of the field. *)
Theorem frame_on_ordinary_fields c h vs r st' b o j ff :
  Walk c h vs = Some (r, st') ->
  h !! b = Some o -> declared (otype o) j ff ->
  implements (Typ ff) = false -> implements (TPtr (Typ ff)) = false ->
  (exists o', heap st' !! b = Some o' /\ otype o' = otype o /\
     ofields o' !! j = ofields o !! j) /\
  (forall x, ESet b j x ∉ trace st') /\
  (forall rec a t i st, field_step rec a t i ff st = Some (Ok, st)).
Proof.
  intros HW Ho Hd Hi Hp. apply Walk_wexec in HW.
  pose proof (proj1 walk_frame _ _ _ _ HW) as Hf.
  split; [|split].
  - destruct (Hf b o Ho) as (o' & Ho' & Ht & Hfr). exists o'.
    do 2 (split; [done|]). by apply (Hfr j ff).
  - intros x Hin.
    destruct (proj1 walk_sets _ _ _ _ HW) as (evs & Htr & Hs).
    simpl in Htr. subst evs.
    destruct (Hs b j x Hin) as (t & ff' & Ht & (fs' & Hfs' & Hl') & Hi').
    pose proof (frame_type _ _ _ _ Hf (type_at_Some _ _ _ Ho)) as Ht'.
    destruct Hd as (fs & Hfs & Hl). congruence.
  - intros rec a t i st. unfold field_step. by rewrite Hp, Hi.
Qed.

(** C6 (single instantiation), as amended.  When [Walk] completes without
    error, the visitor was called exactly once on the instance of each
    registered type, each type having one instance, and then once on the
    root.  So the number of visited structs of a type [T] is one if [*T] was
    registered, plus one if the root is of type [T]: exactly once per type
    unless the root's own type is the type of a field. *)
Theorem single_instantiation c h vs st' :
  heap_wt h = true ->
  Walk c h vs = Some (Ok, st') ->
  exists root ps, c = VPtr root /\
    visits (trace st') = ps.*2 ++ [root] /\
    NoDup ps.*1 /\
    (forall t, t ∈ ps.*1 <-> is_Some (visited st' !! t)) /\
    Forall (fun p => canon st' p.1 p.2 /\
                     type_at (heap st') p.2 = Some (Elem p.1)) ps /\
    forall T, visits_of_type (heap st') T (visits (trace st')) =
      (if decide (is_Some (visited st' !! TPtr T)) then 1 else 0) +
      (if decide (type_at (heap st') root = Some T) then 1 else 0).
Proof.
  intros Hwt HW.
  destruct (Walk_facts _ _ _ _ _ Hwt HW) as ([_ Hr] & _ & _ & _ & HOk).
  destruct HOk as (root & ps & -> & Hvs & Hnd & Hin & Hc); [done|].
  assert (Hin' : forall t, t ∈ ps.*1 <-> is_Some (visited st' !! t)).
  { intros t. rewrite Hin. simpl. rewrite lookup_empty. naive_solver. }
  assert (Hall : Forall (fun p => canon st' p.1 p.2 /\ is_ptr p.1 = true /\
                          type_at (heap st') p.2 = Some (Elem p.1)) ps).
  { eapply Forall_impl; [exact Hc|]. intros [t x] Hx. simpl in *.
    split; [done|]. destruct Hx as (rv & Hv & Hl).
    destruct (Hr _ _ Hv) as (Hp & _ & _ & (x' & Hl' & Hx') & _).
    split; [done|]. congruence. }
  exists root, ps. do 4 (split; [done|]). split.
  { eapply Forall_impl; [exact Hall|]. naive_solver. }
  intros T. rewrite Hvs. unfold visits_of_type. rewrite filter_app, length_app.
  f_equal.
  - fold (visits_of_type (heap st') T ps.*2).
    rewrite visits_of_type_linked; [|done|].
    + destruct (decide (TPtr T ∈ ps.*1)) as [Hd|Hd]; rewrite Hin' in Hd.
      * by rewrite decide_True.
      * by rewrite decide_False.
    + eapply Forall_impl; [exact Hall|]. naive_solver.
  - rewrite filter_cons, filter_nil. by destruct (decide _).
Qed.

(** C10 (the root and the registry), as amended.  [visited] starts empty
    and is filled only from fields whose type implements the interface: the
    instance of a type is an object the walk allocated, or the object that a
    field of that type pointed to before the walk.  The walker never
    registers its own argument.  So when the root is of type [T] and [*T]
    is registered, the visitor runs on the instance of [*T] and on the root;
    the instance is another struct than the root unless a field of type [*T]
    already pointed to the root before the walk. *)
Theorem root_not_registered root h vs st' :
  heap_wt h = true ->
  Walk (VPtr root) h vs = Some (Ok, st') ->
  visited (init_state h vs) = ∅ /\
  (forall t rv, visited st' !! t = Some rv ->
     implements t = true /\ is_ptr t = true /\ t ∈ schema_field_types sch /\
     match rv with
     | RPtr x => length h <= x
     | RField a i _ => exists ff x, field_of h a i ff /\ Typ ff = t /\
         field_get h a i = VPtr x /\ load (heap st') rv = VPtr x
     end) /\
  (forall T x, type_at h root = Some T -> canon st' (TPtr T) x ->
     type_at (heap st') root = Some T /\ type_at (heap st') x = Some T /\
     (exists ps : list (rtype * addr),
        visits (trace st') = ps.*2 ++ [root] /\ x ∈ ps.*2) /\
     (x <> root \/
      exists a i ff, field_of h a i ff /\ Typ ff = TPtr T /\
        field_get h a i = VPtr root)).
Proof.
  intros Hwt HW.
  destruct (Walk_facts _ _ _ _ _ Hwt HW) as ([_ Hr] & He & _ & _ & HOk).
  destruct HOk as (root' & ps & [= <-] & Hvs & Hlk); [done|].
  assert (Hnew : forall t rv, visited st' !! t = Some rv ->
     match rv with
     | RPtr x => length h <= x
     | RField a i _ => exists ff x, field_of h a i ff /\ Typ ff = t /\
         field_get h a i = VPtr x /\ load (heap st') rv = VPtr x
     end).
  { intros t rv Hv. pose proof (ext_new _ _ He t rv (lookup_empty _) Hv) as Hn.
    destruct rv as [x|a i ro]; [done|].
    destruct Hn as (ff & x & ? & ? & ? & ? & ?). by exists ff, x. }
  split; [done|]. split.
  { intros t rv Hv. destruct (Hr _ _ Hv) as (Hp & Hi & Hin & _).
    do 3 (split; [done|]). by apply Hnew. }
  intros T x HT Hx. split; [by apply (ext_type _ _ He)|].
  pose proof Hx as (rv & Hv & Hl).
  destruct (Hr _ _ Hv) as (_ & _ & _ & (x' & Hl' & Hx') & _).
  split; [simpl in Hx'; congruence|]. split.
  { exists ps. split; [done|]. apply list_elem_of_fmap.
    exists (TPtr T, x). split; [done|]. by eapply canon_linked. }
  specialize (Hnew _ _ Hv). destruct rv as [y|a i ro].
  - left. simpl in Hl. injection Hl as ->.
    apply type_at_lt in HT. lia.
  - destruct Hnew as (ff & y & Hfo & HTy & Hg & Hl2).
    destruct (decide (x = root)) as [->|]; [|by left].
    right. exists a, i, ff. do 2 (split; [done|]). congruence.
Qed.

(** C3 (rejection of value fields), as amended.  A field that holds by
    value a type whose pointer type implements the interface makes the loop
    body panic with the message that names the field and the struct.  A
    walk that reaches a struct type with such a field never completes: it
    panics, or returns an error that the visitor returned before; and the
    visitor is never called on a struct of that type, though it may have
    been called on other structs before the panic.  When the field is a
    field of the root and the fields before it are skipped, [Walk] panics
    with that message before any call of the visitor and before it set
    anything. *)
Theorem value_field_rejected root h vs T0 T i ff r st' :
  heap_wt h = true -> type_at h root = Some T0 -> reach T0 T ->
  declared T i ff -> implements (TPtr (Typ ff)) = true ->
  Walk (VPtr root) h vs = Some (r, st') ->
  r <> Ok /\
  (forall e, r = Err e -> exists evs a, trace st' = evs ++ [EVisit a (Some e)]) /\
  (forall b, b ∈ visits (trace st') -> type_at (heap st') b <> Some T) /\
  (forall rec a st,
     field_step rec a T i ff st = Some (Panic (must_be_pointer ff T), st)) /\
  (T = T0 -> (forall j ffj, j < i -> declared T j ffj -> ordinary ffj) ->
     r = Panic (must_be_pointer ff T) /\ st' = init_state h vs).
Proof.
  intros Hwt HT0 Hreach Hd Hp HW.
  assert (Hstep : forall rec a st,
    field_step rec a T i ff st = Some (Panic (must_be_pointer ff T), st)).
  { intros rec a st. unfold field_step. by rewrite Hp. }
  destruct (invalid_field_rejected root h vs T0 T i ff r st' Hwt HT0 Hreach Hd)
    as (H1 & H2 & H3); [|done|].
  { unfold valid_field. by rewrite Hp. }
  do 4 (split; [done|]). intros -> Hpre.
  unfold type_at in HT0. destruct (h !! root) as [o|] eqn:Ho; [|done].
  injection HT0 as <-. destruct Hd as (fs & Hfs & Hi).
  rewrite (Walk_root_panic root h vs o fs i ff (must_be_pointer ff (otype o))) in HW;
    auto.
  - by injection HW as <- <-.
  - intros j ffj Hj Hfj. apply (Hpre j); [done|]. by exists fs.
Qed.

(** C4 (rejection of anonymous and of non-pointer fields), as amended.  A
    field whose type implements the interface and that is anonymous or not
    of pointer kind makes the loop body panic with a message that names the
    field and the struct.  A walk that reaches a struct type with such a
    field never completes: it panics, or returns an error only if the
    visitor returned that error before the walker got to the field; the
    walker itself reports the field by a panic, never by an error, and the
    visitor is never called on a struct of that type. *)
Theorem anonymous_or_non_pointer_rejected root h vs T0 T i ff r st' :
  heap_wt h = true -> type_at h root = Some T0 -> reach T0 T ->
  declared T i ff -> implements (Typ ff) = true ->
  Anonymous ff = true \/ is_ptr (Typ ff) = false ->
  Walk (VPtr root) h vs = Some (r, st') ->
  r <> Ok /\
  (forall e, r = Err e -> exists evs a, trace st' = evs ++ [EVisit a (Some e)]) /\
  (forall b, b ∈ visits (trace st') -> type_at (heap st') b <> Some T) /\
  exists msg,
    (msg = must_be_pointer ff T \/ msg = must_not_be_anonymous ff T) /\
    (forall rec a st, field_step rec a T i ff st = Some (Panic msg, st)) /\
    (T = T0 -> (forall j ffj, j < i -> declared T j ffj -> ordinary ffj) ->
       r = Panic msg /\ st' = init_state h vs).
Proof.
  intros Hwt HT0 Hreach Hd Hi Hbad HW.
  destruct (invalid_field_rejected root h vs T0 T i ff r st' Hwt HT0 Hreach Hd)
    as (H1 & H2 & H3); [|done|].
  { unfold valid_field. rewrite Hi. simpl.
    destruct (implements (TPtr (Typ ff))); [done|]. simpl.
    destruct Hbad as [->| ->]; [|done]. by destruct (is_ptr (Typ ff)). }
  do 3 (split; [done|]).
  assert (Hstep : exists msg,
    (msg = must_be_pointer ff T \/ msg = must_not_be_anonymous ff T) /\
    forall rec a st, field_step rec a T i ff st = Some (Panic msg, st)).
  { unfold field_step. rewrite Hi. simpl.
    destruct (implements (TPtr (Typ ff))); [by eexists; split; [left|]|].
    destruct (is_ptr (Typ ff)); simpl; [|by eexists; split; [left|]].
    destruct Hbad as [->|?]; [|done]. by eexists; split; [right|]. }
  destruct Hstep as (msg & Hmsg & Hstep). exists msg. do 2 (split; [done|]).
  intros -> Hpre.
  unfold type_at in HT0. destruct (h !! root) as [o|] eqn:Ho; [|done].
  injection HT0 as <-. destruct Hd as (fs & Hfs & Hl).
  rewrite (Walk_root_panic root h vs o fs i ff msg) in HW; auto.
  - by injection HW as <- <-.
  - intros j ffj Hj Hfj. apply (Hpre j); [done|]. by exists fs.
Qed.

(** C2 (pre-existing instance wins), as amended.  The instance of a type
    is decided by the first field of that type that the walker meets: when
    that field already points to an object, that object becomes the
    instance; when it is nil, a new object is allocated and becomes the
    instance, and objects that later fields of the type point to are
    dropped.  This holds for the loop body on any struct, at any depth, and
    the instance of a type stays the same through every later call of the
    walker.  For the first field of the root that is not skipped: after a
    walk that completes, the instance of its type is what the field pointed
    to, or else the first object the walk allocated, and every field of
    that type of every walked struct points to it. *)
Theorem first_seen_instance_wins root h vs o fs i ff v st' :
  heap_wt h = true ->
  h !! root = Some o -> struct_fields sch (otype o) = Some fs ->
  fs !! i = Some ff ->
  (forall j ffj, j < i -> fs !! j = Some ffj -> ordinary ffj) ->
  implements (Typ ff) = true ->
  ofields o !! i = Some v ->
  Walk (VPtr root) h vs = Some (Ok, st') ->
  (exists y, canon st' (Typ ff) y /\
     match v with VPtr x => y = x | _ => y = length h end /\
     forall a j ffa, a ∈ visits (trace st') ->
       field_of (heap st') a j ffa -> Typ ffa = Typ ff ->
       field_get (heap st') a j = VPtr y) /\
  (forall fuel a t j ffa st st1,
     inv st -> field_of (heap st) a j ffa ->
     visited st !! Typ ffa = None -> implements (Typ ffa) = true ->
     field_step (walker fuel) a t j ffa st = Some (Ok, st1) ->
     exists y, canon st1 (Typ ffa) y /\
       match field_get (heap st) a j with
       | VPtr x => y = x
       | _ => y = length (heap st)
       end) /\
  (forall fuel c st r st1 t x,
     inv st -> walker fuel c st = Some (r, st1) ->
     canon st t x -> canon st1 t x).
Proof.
  intros Hwt Ho Hfs Hi Hpre Himp Hv HW. split; [|split].
  - destruct (Walk_root_step _ _ _ _ _ _ _ _ Ho Hfs Hi Hpre HW)
      as (st1 & st2 & Hf & Hl & Hfn).
    pose proof (inv_init h vs Hwt) as Hinv.
    assert (Hfo : field_of (heap (init_state h vs)) root i ff).
    { exists (otype o). split; [by apply type_at_Some | by exists fs]. }
    destruct (fexec_first _ _ _ _ _ _ Hf Hinv Hfo (lookup_empty _) Himp)
      as (y & Hy & Hm).
    destruct (proj2 (proj2 walk_flat) _ _ _ _ _ _ _ Hf Hfo Hinv) as [Hinv1 He1].
    destruct (proj1 (proj2 walk_flat) _ _ _ _ _ _ _ Hl) as [Hinv2 He2]; [|done|].
    { apply (ext_type _ _ He1). by apply type_at_Some. }
    destruct (call_fn_ext _ _ _ _ Hinv2 Hfn) as [_ He3].
    assert (Hy' : canon st' (Typ ff) y).
    { eapply canon_ext; [exact He3|]. by eapply canon_ext. }
    exists y. split; [done|]. split.
    { simpl in Hm. unfold field_get in Hm. rewrite Ho in Hm. simpl in Hm.
      by rewrite Hv in Hm. }
    intros a j ffa Ha Hfa HT.
    destruct (Walk_facts _ _ _ _ _ Hwt HW) as (_ & _ & Hn & _).
    destruct (Hn a Ha) as [_ Hna]. destruct (Hna j ffa Hfa) as [_ Hw].
    destruct Hw as [x Hx]; [congruence|].
    destruct (wired_canon _ _ _ _ _ Hx Hfa) as [Hg Hc].
    rewrite HT in Hc. by rewrite (canon_inj _ _ _ _ Hy' Hc).
  - intros fuel a t j ffa st st1 Hinv Hfo Hn Hia Hstep.
    apply field_step_sound in Hstep; [|apply walker_sound].
    by eapply fexec_first.
  - intros fuel c st r st1 t x Hinv Hw Hx. apply walker_sound in Hw.
    destruct (proj1 walk_flat _ _ _ _ Hw Hinv) as [_ He].
    by eapply canon_ext.
Qed.

(** * Further properties of the walker *)

(** ** Structs the walker does not touch *)

(** A struct that no [Set] of [evs] names is the same in [st'] as in [st]. *)
Definition untouched (st st' : state) (evs : list event) : Prop :=
  forall b o, heap st !! b = Some o -> (forall i x, ESet b i x ∉ evs) ->
    heap st' !! b = Some o.

Lemma untouched_same st st' evs : heap st' = heap st -> untouched st st' evs.
Proof. intros Hh b o Ho _. by rewrite Hh. Qed.

Lemma untouched_nil st st' : heap st' = heap st -> untouched st st' [].
Proof. apply untouched_same. Qed.

Lemma untouched_app st st1 st2 e1 e2 :
  untouched st st1 e1 -> untouched st1 st2 e2 -> untouched st st2 (e1 ++ e2).
Proof.
  intros H1 H2 b o Ho Hn. apply H2.
  - apply H1; [done|]. intros i x Hin. apply (Hn i x), elem_of_app. by left.
  - intros i x Hin. apply (Hn i x), elem_of_app. by right.
Qed.

Lemma registered_untouched a i ff st : untouched st (registered a i ff st) [].
Proof.
  intros b o Ho _. unfold registered. destruct (IsNil _ _); simpl; [|done].
  by apply lookup_app_l_Some.
Qed.

Lemma Set_touch a i ro x st r st' :
  Set_ a i ro x st = (r, st') ->
  exists evs, trace st' = trace st ++ evs /\ untouched st st' evs /\
    visits evs = [] /\ forall b j y, ESet b j y ∈ evs -> b = a.
Proof.
  unfold Set_. intros HS.
  assert (Hnil : exists evs, trace st = trace st ++ evs /\ untouched st st evs /\
    visits evs = [] /\ forall b j y, ESet b j y ∈ evs -> b = a).
  { exists []. rewrite app_nil_r. split; [done|]. split; [by apply untouched_nil|].
    split; [done|]. by intros b j y ?%elem_of_nil. }
  destruct ro; [by injection HS as <- <-|].
  destruct x as [rv|]; [|by injection HS as <- <-].
  destruct (is_ro rv); [by injection HS as <- <-|].
  injection HS as <- <-. eexists. split; [done|]. split; [|split; [done|]].
  - intros b o Ho Hn. simpl. rewrite list_lookup_alter_ne; [done|].
    intros <-. eapply Hn. by apply list_elem_of_singleton.
  - by intros b j y [= -> _ _]%list_elem_of_singleton.
Qed.

(** A run changes only structs it sets a field of, and a run that returns
    normally sets fields only of the structs it visits. *)
Lemma walk_touch :
  (forall c st r st', wexec c st r st' ->
     exists evs, trace st' = trace st ++ evs /\ untouched st st' evs /\
       (r = Ok -> forall b i x, ESet b i x ∈ evs -> b ∈ visits evs)) /\
  (forall a t fs i st r st', lexec a t fs i st r st' ->
     exists evs, trace st' = trace st ++ evs /\ untouched st st' evs /\
       (r = Ok -> forall b i x, ESet b i x ∈ evs -> b = a \/ b ∈ visits evs)) /\
  (forall a t i ff st r st', fexec a t i ff st r st' ->
     exists evs, trace st' = trace st ++ evs /\ untouched st st' evs /\
       (r = Ok -> forall b i x, ESet b i x ∈ evs -> b = a \/ b ∈ visits evs)).
Proof.
  apply walk_mutind;
    try (by (intros; exists []; rewrite app_nil_r; split; [done|];
             split; [by apply untouched_nil|]; by intros _ b j y ?%elem_of_nil)).
  - (* W_abort *)
    intros a o fs st r st' _ _ _ (evs & Htr & Hu & _) Hne.
    exists evs. do 2 (split; [done|]). by intros ->.
  - (* W_visit *)
    intros a o fs st st1 r st' _ _ _ (evs & Htr & Hu & HOk) Hfn.
    unfold call_fn in Hfn. destruct (fn _ _ _) as [e vs].
    injection Hfn as <- <-. exists (evs ++ [EVisit a e]). simpl.
    split; [by rewrite Htr, app_assoc|]. split.
    + apply (untouched_app _ st1); [done|]. by apply untouched_same.
    + intros _ b i x [Hin|[=]%list_elem_of_singleton]%elem_of_app.
      rewrite visits_app, elem_of_app. simpl.
      destruct (HOk eq_refl b i x Hin) as [->|?]; [right|by left].
      by apply list_elem_of_singleton.
  - (* L_abort *)
    intros a t ff rest i st r st' _ _ (evs & Htr & Hu & _) Hne.
    exists evs. do 2 (split; [done|]). by intros ->.
  - (* L_next *)
    intros a t ff rest i st st1 r st' _ _ (e1 & Ht1 & Hu1 & HOk1) _
      (e2 & Ht2 & Hu2 & HOk2).
    exists (e1 ++ e2). split; [by rewrite Ht2, Ht1, app_assoc|].
    split; [by eapply untouched_app|].
    intros -> b j x. rewrite visits_app, !elem_of_app.
    intros [Hin|Hin]; [destruct (HOk1 eq_refl b j x Hin) | destruct (HOk2 eq_refl b j x Hin)];
      auto.
  - (* F_seen *)
    intros a t i ff st rv r st' _ _ HS.
    destruct (Set_touch _ _ _ _ _ _ _ HS) as (evs & Htr & Hu & _ & Hs).
    exists evs. do 2 (split; [done|]). intros _ b j y Hin. left. by eapply Hs.
  - (* F_interface *)
    intros a t i ff st msg _ _ _. exists [].
    rewrite registered_trace, app_nil_r. split; [done|].
    split; [apply registered_untouched | done].
  - (* F_abort *)
    intros a t i ff st c r st' _ _ _ _ (evs & Htr & Hu & _) Hne.
    exists evs. split; [by rewrite Htr, registered_trace|]. split; [|by intros ->].
    apply (untouched_app st (registered a i ff st) st' []); [|done].
    apply registered_untouched.
  - (* F_new *)
    intros a t i ff st c st2 r st' _ _ _ _ (e1 & Ht1 & Hu1 & HOk1) HS.
    destruct (Set_touch _ _ _ _ _ _ _ HS) as (e2 & Ht2 & Hu2 & Hv2 & Hs2).
    exists (e1 ++ e2).
    split; [by rewrite Ht2, Ht1, registered_trace, app_assoc|]. split.
    + apply (untouched_app st st2 st'); [|done].
      apply (untouched_app st (registered a i ff st) st2 []); [|done].
      apply registered_untouched.
    + intros _ b j y. rewrite visits_app, Hv2, app_nil_r.
      intros [Hin|Hin]%elem_of_app; [right; by eapply HOk1 | left; by eapply Hs2].
Qed.

(** X1 (structs outside the walk).  When [Walk] completes without error,
    a struct of the caller's heap that the visitor was not called on is
    exactly as it was: the walker writes only to the structs it visits. *)
Theorem unvisited_structs_untouched c h vs st' b o :
  Walk c h vs = Some (Ok, st') ->
  h !! b = Some o -> b ∉ visits (trace st') ->
  heap st' !! b = Some o.
Proof.
  intros HW Ho Hb. apply Walk_wexec in HW.
  destruct (proj1 walk_touch _ _ _ _ HW) as (evs & Htr & Hu & HOk).
  simpl in Htr. subst evs. apply Hu; [done|].
  intros i x Hin. apply Hb. by eapply HOk.
Qed.

(** ** What the walker allocates *)

(** The heap grows by the structs [reflect.New] allocates: each is the
    value of a new key of [visited], and each new key pays for at most one
    struct. *)
Definition allocated (st st' : state) : Prop :=
  length (heap st) <= length (heap st') /\
  length (heap st') + size (visited st) <= length (heap st) + size (visited st') /\
  forall x, length (heap st) <= x < length (heap st') ->
    exists t, visited st !! t = None /\ visited st' !! t = Some (RPtr x).

Lemma allocated_same st st' :
  heap st' = heap st -> visited st' = visited st -> allocated st st'.
Proof. intros Hh Hv. unfold allocated. rewrite Hh, Hv. repeat split; lia. Qed.

Lemma allocated_trans st1 st2 st3 :
  visited st1 ⊆ visited st2 -> visited st2 ⊆ visited st3 ->
  allocated st1 st2 -> allocated st2 st3 -> allocated st1 st3.
Proof.
  intros H12 H23 (Hl1 & Hs1 & Hx1) (Hl2 & Hs2 & Hx2).
  split; [lia|]. split; [lia|]. intros x Hx.
  destruct (decide (x < length (heap st2))) as [Hlt|Hge].
  - destruct (Hx1 x) as (t & Hn & Hs); [lia|]. exists t. split; [done|].
    by eapply lookup_weaken.
  - destruct (Hx2 x) as (t & Hn & Hs); [lia|]. exists t. split; [|done].
    destruct (visited st1 !! t) as [rv|] eqn:E; [|done].
    eapply lookup_weaken in E; [|exact H12]. congruence.
Qed.

Lemma registered_allocated a i ff st :
  visited st !! Typ ff = None -> allocated st (registered a i ff st).
Proof.
  intros Hn. unfold registered, allocated.
  destruct (IsNil _ _); simpl; rewrite map_size_insert_None by done.
  - rewrite length_app. simpl. split; [lia|]. split; [lia|].
    intros x Hx. assert (x = length (heap st)) as -> by lia.
    exists (Typ ff). split; [done|]. apply lookup_insert_eq.
  - split; [lia|]. split; [lia|]. intros x Hx. lia.
Qed.

Lemma Set_heap_length a i ro x st r st' :
  Set_ a i ro x st = (r, st') -> length (heap st') = length (heap st).
Proof.
  unfold Set_. destruct ro; [by intros [= <- <-]|].
  destruct x as [rv|]; [|by intros [= <- <-]].
  destruct (is_ro rv); intros [= <- <-]; [done|]. simpl. apply length_alter.
Qed.

Lemma Set_allocated a i ro x st r st' :
  Set_ a i ro x st = (r, st') -> allocated st st'.
Proof.
  intros HS. unfold allocated.
  rewrite (Set_heap_length _ _ _ _ _ _ _ HS), (Set_visited _ _ _ _ _ _ _ HS).
  repeat split; lia.
Qed.

Lemma walk_alloc :
  (forall c st r st', wexec c st r st' -> allocated st st') /\
  (forall a t fs i st r st', lexec a t fs i st r st' -> allocated st st') /\
  (forall a t i ff st r st', fexec a t i ff st r st' -> allocated st st').
Proof.
  destruct walk_mono as (Wm & Lm & Fm).
  assert (Hreg : forall a i ff st, visited st !! Typ ff = None ->
    visited st ⊆ visited (registered a i ff st)).
  { intros a i ff st Hn. destruct (registered_visited a i ff st) as [rv ->].
    by apply insert_subseteq. }
  apply walk_mutind;
    try (by (intros; first [assumption | by apply allocated_same])).
  - (* W_visit *)
    intros a o fs st st1 r st' _ _ Hl IH Hfn.
    unfold call_fn in Hfn. destruct (fn _ _ _). injection Hfn as <- <-.
    eapply (allocated_trans st st1); [by eapply Lm | done | done |].
    by apply allocated_same.
  - (* L_next *)
    intros a t ff rest i st st1 r st' _ Hf IHf Hl IHl.
    eapply (allocated_trans st st1); eauto.
  - (* F_seen *)
    intros a t i ff st rv r st' _ _ HS. by eapply Set_allocated.
  - (* F_interface *)
    intros. by apply registered_allocated.
  - (* F_abort *)
    intros a t i ff st c r st' _ Hn _ Hw IH _.
    eapply (allocated_trans st (registered a i ff st)); eauto.
    by apply registered_allocated.
  - (* F_new *)
    intros a t i ff st c st2 r st' _ Hn _ Hw IH HS.
    assert (H2 : allocated st st2).
    { eapply (allocated_trans st (registered a i ff st)); eauto.
      by apply registered_allocated. }
    eapply (allocated_trans st st2); [| |done|by eapply Set_allocated].
    + etransitivity; [by apply Hreg | by eapply Wm].
    + by rewrite (Set_visited _ _ _ _ _ _ _ HS).
Qed.

Lemma visited_size_bound st :
  reg_ok st -> size (visited st) <= length (schema_field_types sch).
Proof.
  intros Hr. rewrite <- size_dom.
  etransitivity; [|apply size_list_to_set_le]. apply subseteq_size.
  intros t [rv Hv]%elem_of_dom. apply elem_of_list_to_set.
  by destruct (Hr _ _ Hv) as (_ & _ & ? & _).
Qed.

(** X2 (allocation).  Whatever [Walk] returns, it allocates only the
    instances it registers: every struct that was not in the caller's heap
    is the instance of a registered type, of the element type of that type;
    the number of new structs is at most the number of registered types,
    which is at most the number of field types of the schema. *)
Theorem Walk_allocates_instances_only c h vs r st' :
  heap_wt h = true ->
  Walk c h vs = Some (r, st') ->
  length h <= length (heap st') <= length h + size (visited st') /\
  size (visited st') <= length (schema_field_types sch) /\
  forall x, length h <= x < length (heap st') ->
    exists t, visited st' !! t = Some (RPtr x) /\
              type_at (heap st') x = Some (Elem t).
Proof.
  intros Hwt HW.
  destruct (Walk_facts _ _ _ _ _ Hwt HW) as ([_ Hr] & _).
  apply Walk_wexec in HW. destruct (proj1 walk_alloc _ _ _ _ HW) as (Hl & Hs & Hx).
  simpl in *. rewrite map_size_empty in Hs.
  split; [lia|]. split; [by apply visited_size_bound|].
  intros x Hlt. destruct (Hx x Hlt) as (t & _ & Hv). exists t. split; [done|].
  destruct (Hr _ _ Hv) as (_ & _ & _ & (x' & Hl' & Hx') & _).
  simpl in Hl'. congruence.
Qed.

(** ** The structs the visitor is called on *)

(** The events [evs] were added, and every struct visited in them is of a
    struct type reached from [T0]. *)
Definition visits_reach (T0 : rtype) (st st' : state) (evs : list event) : Prop :=
  trace st' = trace st ++ evs /\
  forall b, b ∈ visits evs ->
    exists T, type_at (heap st') b = Some T /\ reach T0 T /\
      is_Some (struct_fields sch T).

Lemma visits_reach_nil T0 st st' :
  trace st' = trace st -> visits_reach T0 st st' [].
Proof. intros Ht. split; [by rewrite app_nil_r|]. by intros b ?%elem_of_nil. Qed.

Lemma visits_reach_app T0 st st1 st2 e1 e2 :
  visits_reach T0 st st1 e1 -> visits_reach T0 st1 st2 e2 -> ext st1 st2 ->
  visits_reach T0 st st2 (e1 ++ e2).
Proof.
  intros [Ht1 Hv1] [Ht2 Hv2] He. split; [by rewrite Ht2, Ht1, app_assoc|].
  intros b. rewrite visits_app, elem_of_app. intros [Hb|Hb]; [|by auto].
  destruct (Hv1 b Hb) as (T & HT & Hr). exists T. split; [|done].
  by apply (ext_type _ _ He).
Qed.

(** The walker is only called on the root and on instances of types of
    fields of structs it was called on. *)
Lemma walk_visits_reach T0 :
  (forall c st r st', wexec c st r st' -> inv st ->
     (forall a T, c = VPtr a -> type_at (heap st) a = Some T -> reach T0 T) ->
     exists evs, visits_reach T0 st st' evs) /\
  (forall a t fs i st r st', lexec a t fs i st r st' ->
     type_at (heap st) a = Some t -> inv st -> reach T0 t ->
     exists evs, visits_reach T0 st st' evs) /\
  (forall a t i ff st r st', fexec a t i ff st r st' ->
     type_at (heap st) a = Some t -> declared t i ff -> inv st -> reach T0 t ->
     exists evs, visits_reach T0 st st' evs).
Proof.
  destruct walk_flat as (Wflat & Lflat & Fflat).
  assert (Hrec : forall a t i ff st c,
    type_at (heap st) a = Some t -> declared t i ff -> inv st -> reach T0 t ->
    wirable ff -> visited st !! Typ ff = None ->
    Interface (heap (registered a i ff st))
      (visited (registered a i ff st) !! Typ ff) = inl c ->
    forall x T, c = VPtr x -> type_at (heap (registered a i ff st)) x = Some T ->
      reach T0 T).
  { intros a t i ff st c Ht Hd Hinv Hr Hw Hn Hc x T -> HT.
    destruct (registered_ext a i ff st) as [[_ Hreg] _]; auto; [by exists t|].
    unfold Interface in Hc.
    destruct (visited (registered a i ff st) !! Typ ff) as [rv|] eqn:E; [|done].
    destruct (is_ro rv); [done|]. injection Hc as Hc.
    destruct (Hreg _ _ E) as (_ & _ & _ & (x' & Hl & Hx') & _).
    assert (x' = x) as -> by congruence.
    assert (T = Elem (Typ ff)) as -> by congruence.
    destruct Hw as (_ & Hi & _). by eapply reach_field. }
  apply walk_mutind;
    try (by (intros; exists []; by apply visits_reach_nil)).
  - (* W_abort *)
    intros a o fs st r st' Ho Hfs _ IH _ Hinv Hc.
    apply IH; [by apply type_at_Some | done |].
    apply (Hc a); [done | by apply type_at_Some].
  - (* W_visit *)
    intros a o fs st st1 r st' Ho Hfs Hl IH Hfn Hinv Hc.
    pose proof (type_at_Some _ _ _ Ho) as Ht.
    destruct (Lflat _ _ _ _ _ _ _ Hl Ht Hinv) as [Hinv1 He1].
    destruct (call_fn_ext _ _ _ _ Hinv1 Hfn) as [Hinv' He'].
    destruct IH as (evs & Hvr); [done | done | by apply (Hc a) |].
    unfold call_fn in Hfn.
    destruct (fn a (heap st1) (vstate st1)) as [e vs] eqn:Hfn'.
    injection Hfn as <- <-.
    exists (evs ++ [EVisit a e]).
    apply (visits_reach_app _ _ st1); [done | | by subst].
    split; [done|]. simpl. intros b ->%list_elem_of_singleton.
    exists (otype o). split; [by apply (ext_type _ _ He1)|].
    split; [by apply (Hc a) | by exists fs].
  - (* L_abort *)
    intros a t ff rest i st r st' Hd _ IH _ Ht Hinv Hr. by apply IH.
  - (* L_next *)
    intros a t ff rest i st st1 r st' Hd Hf IHf Hl IHl Ht Hinv Hr.
    assert (Hfo : field_of (heap st) a i ff) by (by exists t).
    destruct (Fflat _ _ _ _ _ _ _ Hf Hfo Hinv) as [Hinv1 He1].
    pose proof (ext_type _ _ He1 _ _ Ht) as Ht1.
    destruct (Lflat _ _ _ _ _ _ _ Hl Ht1 Hinv1) as [Hinv' He'].
    destruct IHf as (e1 & Hv1); [done..|].
    destruct IHl as (e2 & Hv2); [done..|].
    exists (e1 ++ e2). by eapply visits_reach_app.
  - (* F_seen *)
    intros a t i ff st rv r st' _ _ HS _ _ _ _.
    destruct (Set_touch _ _ _ _ _ _ _ HS) as (evs & Htr & _ & Hvs & _).
    exists evs. split; [done|]. rewrite Hvs. by intros b ?%elem_of_nil.
  - (* F_interface *)
    intros. exists []. apply visits_reach_nil. apply registered_trace.
  - (* F_abort *)
    intros a t i ff st c r st' Hw Hn Hc _ IH _ Ht Hd Hinv Hr.
    destruct (registered_ext a i ff st) as [Hinv1 He1]; auto; [by exists t|].
    destruct IH as (evs & [Htr Hv]); [done | by eapply Hrec |].
    exists evs. split; [by rewrite Htr, registered_trace | done].
  - (* F_new *)
    intros a t i ff st c st2 r st' Hw Hn Hc Hwx IH HS Ht Hd Hinv Hr.
    assert (Hfo : field_of (heap st) a i ff) by (by exists t).
    destruct (registered_ext a i ff st) as [Hinv1 He1]; auto.
    destruct (Wflat _ _ _ _ Hwx Hinv1) as [Hinv2 He2].
    destruct IH as (e2 & [Htr2 Hv2]); [done | by eapply Hrec |].
    pose proof (ext_trans _ _ _ He1 He2) as He12.
    assert (Hs2 : is_Some (visited st2 !! Typ ff)).
    { destruct (registered_lookup a i ff st) as [rv Hrv]. exists rv.
      by eapply lookup_weaken, ext_visited. }
    destruct (Set_done _ _ _ _ _ _ Hinv2 (field_of_ext _ _ _ _ _ He12 Hfo) Hw Hs2 HS)
      as (Hinv' & He & Hvis & (evs & Htr & Hvs) & _).
    exists (e2 ++ evs).
    apply (visits_reach_app _ _ st2); [| |done].
    + split; [by rewrite Htr2, registered_trace | done].
    + split; [done|]. rewrite Hvs. by intros b ?%elem_of_nil.
Qed.

(** X3 (the types visited).  Whatever [Walk] returns, the visitor was only
    called on structs, of struct types reached from the type of the root; and when
    [Walk] completes without error, the struct types of which the visitor
    was called on a struct are exactly the types reached. *)
Theorem visited_types_are_the_reached_types root h vs r st' T0 :
  heap_wt h = true ->
  Walk (VPtr root) h vs = Some (r, st') ->
  type_at h root = Some T0 ->
  (forall b, b ∈ visits (trace st') ->
     exists T, type_at (heap st') b = Some T /\ reach T0 T /\
       is_Some (struct_fields sch T)) /\
  (r = Ok -> forall T,
     reach T0 T <->
     exists b, b ∈ visits (trace st') /\ type_at (heap st') b = Some T).
Proof.
  intros Hwt HW HT0.
  assert (Hsound : forall b, b ∈ visits (trace st') ->
    exists T, type_at (heap st') b = Some T /\ reach T0 T /\
      is_Some (struct_fields sch T)).
  { pose proof HW as HW'. apply Walk_wexec in HW'.
    destruct (proj1 (walk_visits_reach T0) _ _ _ _ HW' (inv_init h vs Hwt))
      as (evs & Htr & Hv).
    - intros a T [= <-] HT. simpl in HT.
      assert (T = T0) as -> by congruence. apply reach_root.
    - simpl in Htr. by subst evs. }
  split; [done|]. intros -> T. split.
  - intros Hr. by eapply Walk_reach.
  - intros (b & Hb & HT). destruct (Hsound b Hb) as (T' & HT' & Hr & _).
    congruence.
Qed.

(** ** When a walk completes *)

(** Every value of [visited] can be read and assigned. *)
Definition reg_rw (st : state) : Prop :=
  forall t rv, visited st !! t = Some rv -> is_ro rv = false.

(** Every type reached from [T0] is a struct type all of whose fields pass
    the checks of the loop body. *)
Definition walkable (T0 : rtype) : Prop :=
  forall T, reach T0 T ->
    is_Some (struct_fields sch T) /\
    forall i ff, declared T i ff -> valid_field ff = true.

Lemma valid_wirable_exported ff :
  valid_field ff = true -> wirable ff -> is_exported ff = true.
Proof.
  unfold valid_field. intros Hv (Hp & Hi & Hk & Ha).
  rewrite Hp, Hi, Hk, Ha in Hv. by destruct (is_exported ff).
Qed.

Lemma registered_rw a i ff st :
  is_exported ff = true -> reg_rw st -> reg_rw (registered a i ff st).
Proof.
  intros He Hrw t rv. unfold registered.
  destruct (IsNil _ _); simpl; intros [[_ <-]|[_ Hv]]%lookup_insert_Some;
    try (by eapply Hrw); [done|]. simpl. by rewrite He.
Qed.

Lemma Set_rw a i ff st rv :
  is_exported ff = true -> reg_rw st -> visited st !! Typ ff = Some rv ->
  exists st', Set_ a i (negb (is_exported ff)) (visited st !! Typ ff) st = (Ok, st').
Proof.
  intros He Hrw Hv. unfold Set_. rewrite He, Hv. simpl.
  rewrite (Hrw _ _ Hv). by eexists.
Qed.

(** On a walkable schema the walker cannot panic: a run ends in a call of
    the visitor, and returns what the visitor returns. *)
Lemma walk_ok T0 :
  walkable T0 -> (forall a h vs, (fn a h vs).1 = None) ->
  (forall c st r st', wexec c st r st' -> inv st -> reg_rw st ->
     (exists a T, c = VPtr a /\ type_at (heap st) a = Some T /\ reach T0 T) ->
     r = Ok /\ reg_rw st') /\
  (forall a t fs i st r st', lexec a t fs i st r st' ->
     type_at (heap st) a = Some t -> inv st -> reg_rw st -> reach T0 t ->
     r = Ok /\ reg_rw st') /\
  (forall a t i ff st r st', fexec a t i ff st r st' ->
     type_at (heap st) a = Some t -> declared t i ff -> inv st -> reg_rw st ->
     reach T0 t -> r = Ok /\ reg_rw st').
Proof.
  intros Hwalk Hfn.
  destruct walk_flat as (Wflat & Lflat & Fflat).
  destruct walk_mono as (Wm & Lm & Fm).
  assert (Hvalid : forall t i ff, reach T0 t -> declared t i ff ->
    valid_field ff = true).
  { intros t i ff Hr Hd. by apply (proj2 (Hwalk t Hr) i). }
  assert (Hrec : forall a t i ff st c,
    type_at (heap st) a = Some t -> declared t i ff -> inv st -> reach T0 t ->
    wirable ff -> visited st !! Typ ff = None ->
    Interface (heap (registered a i ff st))
      (visited (registered a i ff st) !! Typ ff) = inl c ->
    exists x T, c = VPtr x /\ type_at (heap (registered a i ff st)) x = Some T /\
      reach T0 T).
  { intros a t i ff st c Ht Hd Hinv Hr Hw Hn Hc.
    destruct (registered_ext a i ff st) as [[_ Hreg] _]; auto; [by exists t|].
    unfold Interface in Hc.
    destruct (visited (registered a i ff st) !! Typ ff) as [rv|] eqn:E; [|done].
    destruct (is_ro rv); [done|]. injection Hc as <-.
    destruct (Hreg _ _ E) as (_ & _ & _ & (x & Hl & Hx) & _).
    exists x, (Elem (Typ ff)). do 2 (split; [done|]).
    destruct Hw as (_ & Hi & _). by eapply reach_field. }
  apply walk_mutind.
  - intros st _ _ (a & T & [=] & _).
  - intros d st _ _ (a & T & [=] & _).
  - intros vs st _ _ (a & T & [=] & _).
  - (* W_dangling *)
    intros a st Hnone _ _ (a' & T & [= <-] & HT & _).
    unfold type_at in HT. by rewrite Hnone in HT.
  - (* W_nonstruct *)
    intros a o st Ho Hfs _ _ (a' & T & [= <-] & HT & Hr).
    rewrite (type_at_Some _ _ _ Ho) in HT. injection HT as <-.
    destruct (proj1 (Hwalk _ Hr)) as [fs Hfs']. congruence.
  - (* W_abort *)
    intros a o fs st r st' Ho Hfs _ IH Hne Hinv Hrw (a' & T & [= <-] & HT & Hr).
    rewrite (type_at_Some _ _ _ Ho) in HT. injection HT as <-.
    destruct IH as [-> _]; [by apply type_at_Some | done..].
  - (* W_visit *)
    intros a o fs st st1 r st' Ho Hfs _ IH Hcall Hinv Hrw
      (a' & T & [= <-] & HT & Hr).
    rewrite (type_at_Some _ _ _ Ho) in HT. injection HT as <-.
    destruct IH as [_ Hrw1]; [by apply type_at_Some | done..|].
    unfold call_fn in Hcall. pose proof (Hfn a (heap st1) (vstate st1)) as He.
    destruct (fn a (heap st1) (vstate st1)) as [e vs]. simpl in He. subst e.
    by injection Hcall as <- <-.
  - (* L_nil *)
    by intros.
  - (* L_abort *)
    intros a t ff rest i st r st' Hd _ IH Hne Ht Hinv Hrw Hr.
    by destruct IH as [-> _].
  - (* L_next *)
    intros a t ff rest i st st1 r st' Hd Hf IHf Hl IHl Ht Hinv Hrw Hr.
    assert (Hfo : field_of (heap st) a i ff) by (by exists t).
    destruct (Fflat _ _ _ _ _ _ _ Hf Hfo Hinv) as [Hinv1 He1].
    destruct IHf as [_ Hrw1]; [done..|].
    apply IHl; [by apply (ext_type _ _ He1) | done..].
  - (* F_value *)
    intros a t i ff st Hp Ht Hd _ _ Hr.
    pose proof (Hvalid _ _ _ Hr Hd) as Hv. unfold valid_field in Hv.
    by rewrite Hp in Hv.
  - (* F_skip *)
    by intros.
  - (* F_kind *)
    intros a t i ff st Hp Hi Hk Ht Hd _ _ Hr.
    pose proof (Hvalid _ _ _ Hr Hd) as Hv. unfold valid_field in Hv.
    by rewrite Hp, Hi, Hk in Hv.
  - (* F_anonymous *)
    intros a t i ff st Hp Hi Hk Ha Ht Hd _ _ Hr.
    pose proof (Hvalid _ _ _ Hr Hd) as Hv. unfold valid_field in Hv.
    by rewrite Hp, Hi, Hk, Ha in Hv.
  - (* F_seen *)
    intros a t i ff st rv r st' Hw Hv HS Ht Hd Hinv Hrw Hr.
    pose proof (valid_wirable_exported ff (Hvalid _ _ _ Hr Hd) Hw) as He.
    destruct (Set_rw a i ff st rv He Hrw Hv) as [st2 HS2].
    rewrite Hv in HS2. rewrite HS2 in HS. injection HS as <- <-.
    split; [done|]. intros t' rv'.
    rewrite (Set_visited _ _ _ _ _ _ _ HS2). apply Hrw.
  - (* F_interface *)
    intros a t i ff st msg Hw Hn Hc Ht Hd Hinv Hrw Hr. exfalso.
    pose proof (valid_wirable_exported ff (Hvalid _ _ _ Hr Hd) Hw) as He.
    pose proof (registered_rw a i ff st He Hrw) as Hrw1.
    destruct (registered_lookup a i ff st) as [rv Hrv].
    unfold Interface in Hc. rewrite Hrv in Hc. by rewrite (Hrw1 _ _ Hrv) in Hc.
  - (* F_abort *)
    intros a t i ff st c r st' Hw Hn Hc _ IH Hne Ht Hd Hinv Hrw Hr.
    pose proof (valid_wirable_exported ff (Hvalid _ _ _ Hr Hd) Hw) as He.
    destruct (registered_ext a i ff st) as [Hinv1 He1]; auto; [by exists t|].
    destruct IH as [-> _]; [done | by apply registered_rw | by eapply Hrec | done].
  - (* F_new *)
    intros a t i ff st c st2 r st' Hw Hn Hc Hwx IH HS Ht Hd Hinv Hrw Hr.
    pose proof (valid_wirable_exported ff (Hvalid _ _ _ Hr Hd) Hw) as He.
    destruct (registered_ext a i ff st) as [Hinv1 He1]; auto; [by exists t|].
    destruct IH as [_ Hrw2]; [done | by apply registered_rw | by eapply Hrec |].
    destruct (registered_lookup a i ff st) as [rv Hrv].
    eapply lookup_weaken in Hrv; [|by eapply Wm].
    destruct (Set_rw a i ff st2 rv He Hrw2 Hrv) as [st3 HS3].
    rewrite HS3 in HS. injection HS as <- <-.
    split; [done|]. intros t' rv'.
    rewrite (Set_visited _ _ _ _ _ _ _ HS3). apply Hrw2.
Qed.

(** X4 (when a walk completes).  With a visitor that returns no error,
    [Walk] on a struct completes without error exactly when every type
    reached from the type of the root is a struct type all of whose fields
    pass the checks of the loop body: a field of a type that implements the
    interface is an exported, named field of pointer type. *)
Theorem Walk_completes_iff_walkable root h vs T0 :
  heap_wt h = true ->
  type_at h root = Some T0 ->
  (forall a h' vs', (fn a h' vs').1 = None) ->
  (exists st', Walk (VPtr root) h vs = Some (Ok, st')) <-> walkable T0.
Proof.
  intros Hwt HT0 Hfn. split.
  - intros [st' HW] T Hr.
    destruct (Walk_reach _ _ _ _ _ _ Hwt HW HT0 Hr) as (b & Hb & HT).
    pose proof HW as HW'. apply Walk_wexec in HW'.
    destruct (proj1 (walk_visits_reach T0) _ _ _ _ HW' (inv_init h vs Hwt))
      as (evs & Htr & Hv).
    { intros a T' [= <-] HT'. simpl in HT'.
      assert (T' = T0) as -> by congruence. apply reach_root. }
    simpl in Htr. subst evs. destruct (Hv b Hb) as (T' & HT' & _ & Hs).
    assert (T' = T) as -> by congruence. split; [done|].
    intros i ff Hd. by eapply visited_valid.
  - intros Hwalk. destruct (Walk_total (VPtr root) h vs) as ([r st'] & HW & _).
    exists st'. pose proof HW as HW'. apply Walk_wexec in HW'.
    destruct (proj1 (walk_ok T0 Hwalk Hfn) _ _ _ _ HW' (inv_init h vs Hwt))
      as [-> _]; [by intros t rv | | done].
    exists root, T0. do 2 (split; [done|]). apply reach_root.
Qed.

(** ** Walking a second time *)

(** In a state of a second walk over the heap of [F], the final state of a
    first one: the heap is the heap of [F], and every type registered has
    the instance it has in [F]. *)
Definition settled (F st : state) : Prop :=
  heap st = heap F /\
  forall t rv, visited st !! t = Some rv ->
    is_ro rv = false /\ exists x, load (heap F) rv = VPtr x /\ canon F t x.

Lemma Set_same a i ro rv st r st' x :
  load (heap st) rv = VPtr x -> field_get (heap st) a i = VPtr x ->
  Set_ a i ro (Some rv) st = (r, st') ->
  heap st' = heap st /\ visited st' = visited st.
Proof.
  intros Hl Hg HS. split; [|by eapply Set_visited].
  unfold Set_ in HS. destruct ro; [by injection HS as <- <-|].
  destruct (is_ro rv); injection HS as <- <-; [done|]. simpl. rewrite Hl.
  apply list_eq. intros j. destruct (decide (j = a)) as [->|Hne].
  - rewrite list_lookup_alter_eq. destruct (heap st !! a) as [o|] eqn:Ho; [|done].
    simpl. f_equal. pose proof (field_get_Some _ _ _ _ _ Ho Hg) as Hi.
    destruct o as [t fs]. unfold obj_set. simpl in *. f_equal.
    by apply list_insert_id.
  - by rewrite list_lookup_alter_ne.
Qed.

Lemma walk_settled F :
  (forall b, b ∈ visits (trace F) -> node_ok F b) ->
  (forall t x, canon F t x -> x ∈ visits (trace F)) ->
  (forall c st r st', wexec c st r st' -> settled F st ->
     (forall a, c = VPtr a -> a ∈ visits (trace F)) -> settled F st') /\
  (forall a t fs i st r st', lexec a t fs i st r st' -> settled F st ->
     a ∈ visits (trace F) -> type_at (heap F) a = Some t -> settled F st') /\
  (forall a t i ff st r st', fexec a t i ff st r st' -> settled F st ->
     a ∈ visits (trace F) -> type_at (heap F) a = Some t -> declared t i ff ->
     settled F st').
Proof.
  intros Hnode Hcanon.
  destruct walk_mono as (Wm & Lm & Fm).
  (* a field of a visited struct of [F] that the walker wires *)
  assert (Hfield : forall a t i ff, a ∈ visits (trace F) ->
    type_at (heap F) a = Some t -> declared t i ff -> wirable ff ->
    is_exported ff = true /\
    exists x, field_get (heap F) a i = VPtr x /\ canon F (Typ ff) x).
  { intros a t i ff Ha Ht Hd Hw. destruct (Hnode a Ha) as [_ Hn].
    destruct (Hn i ff) as [Hv Hwd]; [by exists t|].
    split; [by apply valid_wirable_exported|].
    destruct Hwd as [x Hx]; [by destruct Hw as (_ & ? & _)|].
    exists x. eapply wired_canon; [done | by exists t]. }
  assert (Hreg : forall a t i ff st, settled F st -> a ∈ visits (trace F) ->
    type_at (heap F) a = Some t -> declared t i ff -> wirable ff ->
    visited st !! Typ ff = None ->
    settled F (registered a i ff st) /\
    exists x, x ∈ visits (trace F) /\
      Interface (heap (registered a i ff st))
        (visited (registered a i ff st) !! Typ ff) = inl (VPtr x)).
  { intros a t i ff st [Hh Hs] Ha Ht Hd Hw Hn.
    destruct (Hfield a t i ff Ha Ht Hd Hw) as (He & x & Hg & Hc).
    unfold registered, IsNil. simpl. rewrite Hh, Hg, He. simpl. split.
    - split; [done|]. intros t' rv. simpl.
      intros [[<- <-]|[_ Hv]]%lookup_insert_Some; [|by apply Hs].
      split; [done|]. exists x. by split.
    - exists x. split; [by eapply Hcanon|].
      rewrite lookup_insert_eq. simpl. by rewrite Hh, Hg. }
  apply walk_mutind; try (by intros).
  - (* W_abort *)
    intros a o fs st r st' Ho Hfs _ IH _ Hs Hc.
    apply IH; [done | by apply Hc |].
    destruct Hs as [<- _]. by apply type_at_Some.
  - (* W_visit *)
    intros a o fs st st1 r st' Ho Hfs _ IH Hcall Hs Hc.
    destruct IH as [Hh1 Hs1]; [done | by apply Hc | |].
    { destruct Hs as [<- _]. by apply type_at_Some. }
    unfold call_fn in Hcall. destruct (fn _ _ _) as [e vs].
    by injection Hcall as <- <-.
  - (* L_abort *)
    intros a t ff rest i st r st' Hd _ IH _ Hs Ha Ht. by apply IH.
  - (* L_next *)
    intros a t ff rest i st st1 r st' Hd _ IHf _ IHl Hs Ha Ht.
    apply IHl; [|done..]. by apply IHf.
  - (* F_seen *)
    intros a t i ff st rv r st' Hw Hv HS [Hh Hs] Ha Ht Hd.
    destruct (Hfield a t i ff Ha Ht Hd Hw) as (He & x & Hg & Hc).
    destruct (Hs _ _ Hv) as (_ & x' & Hl & Hc').
    rewrite (canon_inj _ _ _ _ Hc' Hc) in Hl.
    destruct (Set_same a i (negb (is_exported ff)) rv st r st' x) as [Hh' Hv'];
      [by rewrite Hh.. | done |].
    split; [congruence|]. rewrite Hv'. apply Hs.
  - (* F_interface *)
    intros a t i ff st msg Hw Hn _ Hs Ha Ht Hd.
    by destruct (Hreg a t i ff st).
  - (* F_abort *)
    intros a t i ff st c r st' Hw Hn Hc _ IH _ Hs Ha Ht Hd.
    destruct (Hreg a t i ff st) as (Hs1 & x & Hx & Hc'); [done..|].
    apply IH; [done|]. intros y ->. congruence.
  - (* F_new *)
    intros a t i ff st c st2 r st' Hw Hn Hc Hwx IH HS Hs Ha Ht Hd.
    destruct (Hreg a t i ff st) as (Hs1 & x & Hx & Hc'); [done..|].
    destruct IH as [Hh2 Hs2]; [done | intros y ->; congruence |].
    destruct (Hfield a t i ff Ha Ht Hd Hw) as (He & x0 & Hg & Hcx).
    destruct (registered_lookup a i ff st) as [rv Hrv].
    eapply lookup_weaken in Hrv; [|by eapply Wm].
    destruct (Hs2 _ _ Hrv) as (_ & x' & Hl & Hcx').
    rewrite (canon_inj _ _ _ _ Hcx' Hcx) in Hl. rewrite Hrv in HS.
    destruct (Set_same a i (negb (is_exported ff)) rv st2 r st' x0) as [Hh' Hv'];
      [by rewrite Hh2.. | done |].
    split; [congruence|]. rewrite Hv'. apply Hs2.
Qed.

(** X5 (walking again).  After a walk that completed without error, a
    second walk from a struct the first one visited changes nothing in the
    heap, whatever its visitor state and result: it allocates no struct,
    every field it assigns already holds the value assigned, and every type
    it registers has the instance the first walk gave it. *)
Theorem second_Walk_changes_nothing root h vs st1 root2 vs2 r st2 :
  heap_wt h = true ->
  Walk (VPtr root) h vs = Some (Ok, st1) ->
  root2 ∈ visits (trace st1) ->
  Walk (VPtr root2) (heap st1) vs2 = Some (r, st2) ->
  heap st2 = heap st1 /\
  forall t x, canon st2 t x -> canon st1 t x.
Proof.
  intros Hwt HW Hroot HW2.
  destruct (Walk_facts _ _ _ _ _ Hwt HW) as (_ & _ & Hn & _ & HOk).
  destruct HOk as (root' & ps & [= <-] & Hvs & Hlk); [done|].
  apply Walk_wexec in HW2.
  assert (Hcanon : forall t x, canon st1 t x -> x ∈ visits (trace st1)).
  { intros t x Hc. rewrite Hvs. apply elem_of_app. left.
    apply list_elem_of_fmap. exists (t, x). split; [done|].
    by eapply canon_linked. }
  destruct (proj1 (walk_settled st1 Hn Hcanon) _ _ _ _ HW2) as [Hh Hs].
  - split; [done|]. by intros t rv.
  - by intros a [= <-].
  - split; [done|]. intros t x (rv & Hv & Hl).
    destruct (Hs _ _ Hv) as (_ & x' & Hl' & Hc). rewrite Hh in Hl. congruence.
Qed.

(** ** What the visitor is shown *)

(** Every field of the struct at [a] whose type implements the interface
    holds a pointer. *)
Definition fully_wired (h : heap_t) (a : addr) : Prop :=
  forall i ff, field_of h a i ff -> implements (Typ ff) = true ->
    exists x, field_get h a i = VPtr x.

(** [rec'] returns what [rec] returns, from a state that satisfies the
    invariant. *)
Definition agrees (rec rec' : value -> state -> option (result * state)) : Prop :=
  forall c st x, inv st -> rec c st = Some x -> rec' c st = Some x.

Lemma field_step_agree rec rec' a t i ff st x :
  agrees rec rec' -> inv st -> field_of (heap st) a i ff ->
  field_step rec a t i ff st = Some x -> field_step rec' a t i ff st = Some x.
Proof.
  intros Hag Hinv Hfo. unfold field_step.
  destruct (implements (TPtr (Typ ff))) eqn:Hp; [done|].
  destruct (implements (Typ ff)) eqn:Hi; simpl; [|done].
  destruct (is_ptr (Typ ff)) eqn:Hk; simpl; [|done].
  destruct (Anonymous ff) eqn:Ha; [done|].
  destruct (visited st !! Typ ff) as [rv|] eqn:Hv; [done|].
  fold (registered a i ff st).
  destruct (Interface _ _) as [c|msg] eqn:Hc; [|done].
  destruct (registered_ext a i ff st) as [Hinv1 _]; auto; [done|].
  destruct (rec c (registered a i ff st)) as [y|] eqn:Hr; [|done].
  by rewrite (Hag _ _ _ Hinv1 Hr).
Qed.

Lemma fields_loop_agree rec rec' a t fs : forall pre i st x,
  sound rec -> agrees rec rec' -> inv st -> type_at (heap st) a = Some t ->
  struct_fields sch t = Some (pre ++ fs) -> length pre = i ->
  fields_loop rec a t fs i st = Some x -> fields_loop rec' a t fs i st = Some x.
Proof.
  destruct walk_flat as (_ & _ & Fflat).
  induction fs as [|ff rest IH]; intros pre i st x Hs Hag Hinv Ht Hfs Hlen; simpl;
    [done|].
  assert (Hd : declared t i ff).
  { exists (pre ++ ff :: rest). split; [done|].
    subst i. by rewrite list_lookup_middle. }
  assert (Hfo : field_of (heap st) a i ff) by (by exists t).
  destruct (field_step rec a t i ff st) as [[r1 st1]|] eqn:Hstep; [|done].
  rewrite (field_step_agree _ _ _ _ _ _ _ _ Hag Hinv Hfo Hstep).
  destruct r1; try done.
  apply field_step_sound in Hstep; [|done].
  destruct (Fflat _ _ _ _ _ _ _ Hstep Hfo Hinv) as [Hinv1 He1].
  apply (IH (pre ++ [ff])); auto.
  - by apply (ext_type _ _ He1).
  - by rewrite <- app_assoc.
  - rewrite length_app. simpl. lia.
Qed.

(** When the loop over the fields of a struct is through, the struct is
    fully wired. *)
Lemma fields_loop_wires rec a o fs st st1 :
  sound rec -> inv st -> heap st !! a = Some o ->
  struct_fields sch (otype o) = Some fs ->
  fields_loop rec a (otype o) fs 0 st = Some (Ok, st1) ->
  fully_wired (heap st1) a.
Proof.
  intros Hs Hinv Ho Hfs Hloop.
  apply (fields_loop_sound _ _ _ _ []) in Hloop; auto.
  pose proof (type_at_Some _ _ _ Ho) as Ht.
  destruct (proj1 (proj2 walk_flat) _ _ _ _ _ _ _ Hloop Ht Hinv) as [_ He].
  destruct (proj1 (proj2 walk_struct) _ _ _ _ _ _ _ Hloop Ht Hinv)
    as (evs & _ & HOk).
  destruct HOk as [Hdone _]; [done|].
  intros i ff (t' & Ht' & fs' & Hfs' & Hi) Himp.
  pose proof (ext_type _ _ He _ _ Ht) as Ht1.
  assert (t' = otype o) as -> by congruence.
  assert (fs' = fs) as -> by congruence.
  destruct (Hdone i ff Hi) as [_ Hw]. destruct (Hw Himp) as (x & ff' & rv & _ & _ & _ & Hg).
  by exists x.
Qed.

End Walk.

Arguments Ok {error}.
Arguments Err {error} e.
Arguments Panic {error} msg.
Arguments EVisit {error} a r.
Arguments ESet {error} a i x.
Arguments mkState {error VS} heap visited vstate trace.
Arguments heap {error VS} s.
Arguments visited {error VS} s.
Arguments vstate {error VS} s.
Arguments trace {error VS} s.
Arguments init_state {error VS} h vs.
Arguments walker {error VS} sch implements fn fuel c st.
Arguments field_step {error VS} sch implements rec a t i ff st.
Arguments Walk {error VS} sch implements fn c h vs.
Arguments visits {error} evs.
Arguments canon {error VS} st t x.

(** * Two visitors *)

Section Visitors.

Context {error VS : Type}.
Variable sch : schema.
Variable implements : rtype -> bool.
Variables fn fn' : WalkFn error VS.

(** [fn] and [fn'] return the same on every struct that is fully wired. *)
Hypothesis same_on_wired : forall a h vs,
  fully_wired sch implements h a -> fn a h vs = fn' a h vs.

Lemma walker_agree n :
  agrees error VS sch implements
    (walker sch implements fn n) (walker sch implements fn' n).
Proof.
  induction n as [|n IH]; intros c st x Hinv; [done|].
  simpl. unfold walker_body.
  destruct c as [|a|d|vs]; try done.
  destruct (heap st !! a) as [o|] eqn:Ho; [|done].
  destruct (struct_fields sch (otype o)) as [fs|] eqn:Hfs; [|done].
  destruct (fields_loop _ _ _ _ (walker sch implements fn n) _ _ _ _ _)
    as [[r1 st1]|] eqn:Hloop; [|done].
  pose proof (walker_sound error VS sch implements fn n) as Hs.
  pose proof (fields_loop_agree error VS sch implements fn _ _ _ _ _ [] _ _ _
                Hs IH Hinv (type_at_Some _ _ _ Ho) Hfs eq_refl Hloop) as Hloop'.
  simpl in Hloop'. rewrite Hloop'.
  destruct r1; try done.
  pose proof (fields_loop_wires error VS sch implements fn _ _ _ _ _ _
                Hs Hinv Ho Hfs Hloop) as Hw.
  unfold call_fn. by rewrite (same_on_wired _ _ _ Hw).
Qed.

(** X6 (what the visitor is shown).  [Walk] calls the visitor only on
    structs that are fully wired, that is, in which every field of a type
    that implements the interface holds a pointer: two visitors that return
    the same on such structs give the same result and the same final
    state. *)
Theorem visitor_called_on_wired_structs_only c h vs :
  heap_wt sch h = true ->
  Walk sch implements fn c h vs = Walk sch implements fn' c h vs.
Proof.
  intros Hwt. destruct (Walk_total error VS sch implements fn c h vs) as (x & HW & _).
  rewrite HW. symmetry. unfold Walk in *.
  eapply walker_agree; [|exact HW]. by apply inv_init.
Qed.

End Visitors.

(** * Runs of [Walk] on concrete structs *)

Local Open Scope string_scope.

(** The result of a run, for the statements below. *)
Definition final {error VS : Type} (d : VS)
    (x : option (result error * state error VS)) : state error VS :=
  match x with
  | Some (_, st) => st
  | None => init_state [] d
  end.

(** A visitor that never fails, and one that fails on the structs of the
    type named [n]. *)
Definition fn_ok : WalkFn string unit := fun _ _ vs => (None, vs).

Definition fn_fail_on (n : string) : WalkFn string unit :=
  fun a h vs =>
    if bool_decide (type_at h a = Some (TNamed n))
    then (Some ("cannot register " +:+ n), vs)
    else (None, vs).

Definition field (name : string) (t : rtype) : StructField :=
  {| Name := name; PkgPath := ""; Typ := t; Anonymous := false |}.

(** A field that is not exported, of the package [cli]. *)
Definition private_field (name : string) (t : rtype) : StructField :=
  {| Name := name; PkgPath := "cli"; Typ := t; Anonymous := false |}.

Definition tConn : rtype := TNamed "Conn".
Definition tRoot : rtype := TNamed "Root".
Definition tDep : rtype := TNamed "Dep".
Definition tNode : rtype := TNamed "Node".

(** [type Conn struct { u string }], with the interface implemented by
    [*Conn]; [type Dep struct { C *Conn }], implemented by [*Dep];
    [type Root struct { A *Conn; B *Conn }]. *)
Definition sch_two : schema :=
  list_to_map
    [("Root", [field "A" (TPtr tConn); field "B" (TPtr tConn)]);
     ("Conn", [private_field "u" (TNamed "string")])].

Definition implements_conn (t : rtype) : bool :=
  bool_decide (t = TPtr tConn) || bool_decide (t = TPtr tDep).

(** The scenario of the specification: [A] is nil and [B] points to the
    instance [X], the struct at address 1. *)
Definition heap_nil_then_X : heap_t :=
  [ {| otype := tRoot; ofields := [VNil; VPtr 1] |};
    {| otype := tConn; ofields := [VData 7] |} ].

(** The other way round: [A] points to [X] and [B] is nil. *)
Definition heap_X_then_nil : heap_t :=
  [ {| otype := tRoot; ofields := [VPtr 1; VNil] |};
    {| otype := tConn; ofields := [VData 7] |} ].

Definition run_nil_then_X :=
  Walk sch_two implements_conn fn_ok (VPtr 0) heap_nil_then_X tt.

Definition run_X_then_nil :=
  Walk sch_two implements_conn fn_ok (VPtr 0) heap_X_then_nil tt.

(** C2, counterexample: in the scenario of the specification both fields
    end up pointing to the struct the walk allocated (address 2), not to
    [X] (address 1); the visitor is called on that new struct and on the
    root, and never on [X]. *)
Lemma preexisting_instance_loses :
  run_nil_then_X = Some (Ok, final tt run_nil_then_X) /\
  field_get (heap (final tt run_nil_then_X)) 0 0 = VPtr 2 /\
  field_get (heap (final tt run_nil_then_X)) 0 1 = VPtr 2 /\
  field_get heap_nil_then_X 0 1 = VPtr 1 /\
  visits (trace (final tt run_nil_then_X)) = [2; 0].
Proof. repeat split; vm_compute; reflexivity. Qed.

(** C2, witness: with [A] pointing to [X] and [B] nil, [X] is the instance
    of [*Conn] and both fields point to it. *)
Lemma first_seen_instance_wins_witness :
  (exists y, canon (final tt run_X_then_nil) (TPtr tConn) y /\
     y = 1 /\
     forall a j ffa, a ∈ visits (trace (final tt run_X_then_nil)) ->
       field_of sch_two (heap (final tt run_X_then_nil)) a j ffa ->
       Typ ffa = TPtr tConn ->
       field_get (heap (final tt run_X_then_nil)) a j = VPtr y) /\
  (forall fuel a t j ffa (st st1 : state string unit),
     inv string unit sch_two implements_conn st ->
     field_of sch_two (heap st) a j ffa ->
     visited st !! Typ ffa = None -> implements_conn (Typ ffa) = true ->
     field_step sch_two implements_conn
       (walker sch_two implements_conn fn_ok fuel) a t j ffa st = Some (Ok, st1) ->
     exists y, canon st1 (Typ ffa) y /\
       match field_get (heap st) a j with
       | VPtr x => y = x
       | _ => y = length (heap st)
       end) /\
  (forall fuel c (st : state string unit) r st1 t x,
     inv string unit sch_two implements_conn st ->
     walker sch_two implements_conn fn_ok fuel c st = Some (r, st1) ->
     canon st t x -> canon st1 t x).
Proof.
  apply (first_seen_instance_wins string unit sch_two implements_conn fn_ok
           0 heap_X_then_nil tt
           {| otype := tRoot; ofields := [VPtr 1; VNil] |}
           [field "A" (TPtr tConn); field "B" (TPtr tConn)]
           0 (field "A" (TPtr tConn)) (VPtr 1) (final tt run_X_then_nil)).
  - vm_compute; reflexivity.
  - reflexivity.
  - vm_compute; reflexivity.
  - reflexivity.
  - intros j ffj Hj. lia.
  - vm_compute; reflexivity.
  - reflexivity.
  - vm_compute; reflexivity.
Defined.

(** [type Root struct { A *Conn; D *Dep; Name string }],
    [type Dep struct { C *Conn }], [type Conn struct { u string }]. *)
Definition sch_graph : schema :=
  list_to_map
    [("Root", [field "A" (TPtr tConn); field "D" (TPtr tDep);
               field "Name" (TNamed "string")]);
     ("Dep", [field "C" (TPtr tConn)]);
     ("Conn", [private_field "u" (TNamed "string")])].

Definition heap_graph : heap_t :=
  [ {| otype := tRoot; ofields := [VNil; VNil; VData 3] |} ].

Definition run_graph :=
  Walk sch_graph implements_conn fn_ok (VPtr 0) heap_graph tt.

(** The same walk with a visitor that fails on the [Dep]. *)
Definition run_graph_fail :=
  Walk sch_graph implements_conn (fn_fail_on "Dep") (VPtr 0) heap_graph tt.

Ltac field_of_tac :=
  eexists; split; [vm_compute; reflexivity |
                   eexists; split; vm_compute; reflexivity].

Ltac elem_tac := vm_compute; repeat constructor.

(** C1, witness: [Root.A] (struct 0, field 0) and [Dep.C] (struct 2,
    field 0) hold the same [*Conn]. *)
Lemma sharing_invariant_witness :
  exists x, field_get (heap (final tt run_graph)) 0 0 = VPtr x /\
            field_get (heap (final tt run_graph)) 2 0 = VPtr x /\
            canon (final tt run_graph) (TPtr tConn) x /\
            x ∈ visits (trace (final tt run_graph)).
Proof.
  apply (sharing_invariant string unit sch_graph implements_conn fn_ok
           (VPtr 0) heap_graph tt (final tt run_graph)
           0 0 (field "A" (TPtr tConn)) 2 0 (field "C" (TPtr tConn))).
  - vm_compute; reflexivity.
  - vm_compute; reflexivity.
  - elem_tac.
  - elem_tac.
  - field_of_tac.
  - field_of_tac.
  - reflexivity.
  - vm_compute; reflexivity.
Defined.

(** C5, witness: the visitor fails on the [Dep] (struct 2), its fourth
    event; the walk has four events and returns that error. *)
Lemma early_exit_on_visitor_error_witness :
  Err "cannot register Dep" = Err "cannot register Dep" /\
  length (trace (final tt run_graph_fail)) = 4.
Proof.
  apply (early_exit_on_visitor_error string unit sch_graph implements_conn
           (fn_fail_on "Dep") (VPtr 0) heap_graph tt
           (Err "cannot register Dep") (final tt run_graph_fail)
           3 2 "cannot register Dep").
  - vm_compute; reflexivity.
  - vm_compute; reflexivity.
Defined.

(** C7, witness: [Root.A] was set to the [Conn] (struct 1) before the
    visitor failed on the [Dep]; it still points to it. *)
Lemma no_rollback_on_visitor_error_witness :
  field_get (heap (final tt run_graph_fail)) 0 0 = VPtr 1 /\
  exists ff y, field_of sch_graph (heap (final tt run_graph_fail)) 0 0 ff /\
    implements_conn (Typ ff) = true /\
    VPtr 1 = VPtr y /\ canon (final tt run_graph_fail) (Typ ff) y.
Proof.
  apply (no_rollback_on_visitor_error string unit sch_graph implements_conn
           (fn_fail_on "Dep") (VPtr 0) heap_graph tt
           "cannot register Dep" (final tt run_graph_fail) 0 0 (VPtr 1)).
  - vm_compute; reflexivity.
  - vm_compute; reflexivity.
  - elem_tac.
Defined.

(** C9, witness: [Root.Name] keeps its value. *)
Lemma frame_on_ordinary_fields_witness :
  (exists o', heap (final tt run_graph) !! 0 = Some o' /\
     otype o' = tRoot /\ ofields o' !! 2 = Some (VData 3)) /\
  (forall x, @ESet string 0 2 x ∉ trace (final tt run_graph)) /\
  (forall rec a t i (st : state string unit),
     field_step sch_graph implements_conn rec a t i
       (field "Name" (TNamed "string")) st = Some (Ok, st)).
Proof.
  apply (frame_on_ordinary_fields string unit sch_graph implements_conn fn_ok
           (VPtr 0) heap_graph tt Ok (final tt run_graph) 0
           {| otype := tRoot; ofields := [VNil; VNil; VData 3] |}
           2 (field "Name" (TNamed "string"))).
  - vm_compute; reflexivity.
  - reflexivity.
  - eexists; split; vm_compute; reflexivity.
  - reflexivity.
  - reflexivity.
Defined.

(** [type Root struct { A *Conn; B Conn }]: [B] holds a [Conn] by value. *)
Definition sch_value : schema :=
  list_to_map
    [("Root", [field "A" (TPtr tConn); field "B" tConn]);
     ("Conn", [private_field "u" (TNamed "string")])].

Definition heap_value : heap_t :=
  [ {| otype := tRoot; ofields := [VNil; VStruct [VData 0]] |} ].

Definition run_value :=
  Walk sch_value implements_conn fn_ok (VPtr 0) heap_value tt.

(** C3, counterexample: the walk panics on [B], as it must, but only after
    it allocated a [Conn] for [A], called the visitor on it and set [A]. *)
Lemma value_field_rejected_after_a_visit :
  run_value =
    Some (Panic (must_be_pointer (field "B" tConn) tRoot), final tt run_value) /\
  trace (final tt run_value) = [EVisit 1 None; ESet 0 0 (VPtr 1)].
Proof. split; vm_compute; reflexivity. Qed.

Definition panic_B : result string :=
  Panic (must_be_pointer (field "B" tConn) tRoot).

(** C3, witness: the same walk. *)
Lemma value_field_rejected_witness :
  panic_B <> Ok /\
  (forall e, panic_B = Err e ->
     exists evs a, trace (final tt run_value) = (evs ++ [EVisit a (Some e)])%list) /\
  (forall b, b ∈ visits (trace (final tt run_value)) ->
     type_at (heap (final tt run_value)) b <> Some tRoot) /\
  (forall rec a (st : state string unit),
     field_step sch_value implements_conn rec a tRoot 1 (field "B" tConn) st =
     Some (panic_B, st)) /\
  (tRoot = tRoot ->
   (forall j ffj, j < 1 -> declared sch_value tRoot j ffj ->
      ordinary implements_conn ffj) ->
   panic_B = Panic (must_be_pointer (field "B" tConn) tRoot) /\
   final tt run_value = init_state heap_value tt).
Proof.
  apply (value_field_rejected string unit sch_value implements_conn fn_ok
           0 heap_value tt tRoot tRoot 1 (field "B" tConn)).
  - vm_compute; reflexivity.
  - reflexivity.
  - apply reach_root.
  - eexists; split; vm_compute; reflexivity.
  - vm_compute; reflexivity.
  - vm_compute; reflexivity.
Defined.

(** [type Root struct { A *Conn; B Flagger }], where [Flagger] is an
    interface type that implements the interface: [B] is not a pointer. *)
Definition sch_iface : schema :=
  list_to_map
    [("Root", [field "A" (TPtr tConn); field "B" (TNamed "Flagger")]);
     ("Conn", [private_field "u" (TNamed "string")])].

Definition implements_flagger (t : rtype) : bool :=
  bool_decide (t = TPtr tConn) || bool_decide (t = TNamed "Flagger").

Definition heap_iface : heap_t :=
  [ {| otype := tRoot; ofields := [VNil; VData 0] |} ].

Definition run_iface_fail :=
  Walk sch_iface implements_flagger (fn_fail_on "Conn") (VPtr 0) heap_iface tt.

(** C4, counterexample: the root has a field of a type that implements the
    interface and is not a pointer, and [Walk] returns an error, not a
    panic: the visitor failed on the [Conn] of [A] before the walker got
    to [B]. *)
Lemma non_pointer_field_and_error :
  declared sch_iface tRoot 1 (field "B" (TNamed "Flagger")) /\
  implements_flagger (TNamed "Flagger") = true /\
  is_ptr (TNamed "Flagger") = false /\
  run_iface_fail = Some (Err "cannot register Conn", final tt run_iface_fail).
Proof.
  split; [eexists; split; vm_compute; reflexivity|].
  repeat split; vm_compute; reflexivity.
Qed.

(** [type Root struct { D *Dep }], [type Dep struct { *Conn }]: the [Dep]
    embeds a [*Conn]. *)
Definition embedded_conn : StructField :=
  {| Name := "Conn"; PkgPath := ""; Typ := TPtr tConn; Anonymous := true |}.

Definition sch_embed : schema :=
  list_to_map
    [("Root", [field "D" (TPtr tDep)]);
     ("Dep", [embedded_conn]);
     ("Conn", [private_field "u" (TNamed "string")])].

Definition heap_embed : heap_t :=
  [ {| otype := tRoot; ofields := [VNil] |} ].

Definition run_embed :=
  Walk sch_embed implements_conn fn_ok (VPtr 0) heap_embed tt.

Definition panic_embedded : result string :=
  Panic (must_not_be_anonymous embedded_conn tDep).

(** C4, witness: the walk reaches [Dep] through [Root.D] and panics on the
    embedded field. *)
Lemma anonymous_or_non_pointer_rejected_witness :
  panic_embedded <> Ok /\
  (forall e, panic_embedded = Err e ->
     exists evs a, trace (final tt run_embed) = (evs ++ [EVisit a (Some e)])%list) /\
  (forall b, b ∈ visits (trace (final tt run_embed)) ->
     type_at (heap (final tt run_embed)) b <> Some tDep) /\
  exists msg,
    (msg = must_be_pointer embedded_conn tDep \/
     msg = must_not_be_anonymous embedded_conn tDep) /\
    (forall rec a (st : state string unit),
       field_step sch_embed implements_conn rec a tDep 0 embedded_conn st =
       Some (Panic msg, st)) /\
    (tDep = tRoot ->
     (forall j ffj, j < 0 -> declared sch_embed tDep j ffj ->
        ordinary implements_conn ffj) ->
     panic_embedded = Panic msg /\
     final tt run_embed = init_state heap_embed tt).
Proof.
  apply (anonymous_or_non_pointer_rejected string unit sch_embed implements_conn
           fn_ok 0 heap_embed tt tRoot tDep 0 embedded_conn).
  - vm_compute; reflexivity.
  - reflexivity.
  - apply (reach_field sch_embed implements_conn tRoot tRoot 0
             (field "D" (TPtr tDep))).
    + apply reach_root.
    + eexists; split; vm_compute; reflexivity.
    + vm_compute; reflexivity.
  - eexists; split; vm_compute; reflexivity.
  - vm_compute; reflexivity.
  - left. reflexivity.
  - vm_compute; reflexivity.
Defined.

(** [type Node struct { Next *Node }], with the interface implemented by
    [*Node]: the root is of the type of its own field. *)
Definition sch_node : schema :=
  list_to_map [("Node", [field "Next" (TPtr tNode)])].

Definition implements_node (t : rtype) : bool := bool_decide (t = TPtr tNode).

Definition heap_node_nil : heap_t := [ {| otype := tNode; ofields := [VNil] |} ].

(** The root points to itself. *)
Definition heap_node_self : heap_t := [ {| otype := tNode; ofields := [VPtr 0] |} ].

Definition run_node_nil :=
  Walk sch_node implements_node fn_ok (VPtr 0) heap_node_nil tt.

Definition run_node_self :=
  Walk sch_node implements_node fn_ok (VPtr 0) heap_node_self tt.

(** C6, counterexample: one type implements the interface, [Node], and the
    visitor is called on two structs of that type: the instance the walk
    allocated for [Next] and the root. *)
Lemma visitor_twice_for_one_type :
  run_node_nil = Some (Ok, final tt run_node_nil) /\
  visits (trace (final tt run_node_nil)) = [1; 0] /\
  type_at (heap (final tt run_node_nil)) 1 = Some tNode /\
  type_at (heap (final tt run_node_nil)) 0 = Some tNode /\
  visits_of_type (heap (final tt run_node_nil)) tNode
    (visits (trace (final tt run_node_nil))) = 2.
Proof. repeat split; vm_compute; reflexivity. Qed.

(** C6, witness: the walk of [Root], [Dep] and [Conn]. *)
Lemma single_instantiation_witness :
  exists root ps, VPtr 0 = VPtr root /\
    visits (trace (final tt run_graph)) = (ps.*2 ++ [root])%list /\
    NoDup ps.*1 /\
    (forall t, t ∈ ps.*1 <-> is_Some (visited (final tt run_graph) !! t)) /\
    Forall (fun p => canon (final tt run_graph) p.1 p.2 /\
                     type_at (heap (final tt run_graph)) p.2 = Some (Elem p.1)) ps /\
    forall T, visits_of_type (heap (final tt run_graph)) T
                (visits (trace (final tt run_graph))) =
      (if decide (is_Some (visited (final tt run_graph) !! TPtr T)) then 1 else 0) +
      (if decide (type_at (heap (final tt run_graph)) root = Some T) then 1 else 0).
Proof.
  apply (single_instantiation string unit sch_graph implements_conn fn_ok
           (VPtr 0) heap_graph tt (final tt run_graph)).
  - vm_compute; reflexivity.
  - vm_compute; reflexivity.
Defined.

(** C10, counterexample: the field of the root points to the root, so the
    instance of [*Node] is the root itself; no other struct is created and
    the visitor runs twice on the root. *)
Lemma root_is_the_instance :
  run_node_self = Some (Ok, final tt run_node_self) /\
  canon (final tt run_node_self) (TPtr tNode) 0 /\
  field_get (heap (final tt run_node_self)) 0 0 = VPtr 0 /\
  length (heap (final tt run_node_self)) = 1 /\
  visits (trace (final tt run_node_self)) = [0; 0].
Proof.
  split; [vm_compute; reflexivity|]. split.
  { eexists. split; vm_compute; reflexivity. }
  repeat split; vm_compute; reflexivity.
Qed.

(** C10, witness: the field of the root is nil; the instance of [*Node] is
    a new struct, and the visitor runs on it and on the root. *)
Lemma root_not_registered_witness :
  visited (init_state (error:=string) heap_node_nil tt) = ∅ /\
  (forall t rv, visited (final tt run_node_nil) !! t = Some rv ->
     implements_node t = true /\ is_ptr t = true /\
     t ∈ schema_field_types sch_node /\
     match rv with
     | RPtr x => length heap_node_nil <= x
     | RField a i _ => exists ff x, field_of sch_node heap_node_nil a i ff /\
         Typ ff = t /\ field_get heap_node_nil a i = VPtr x /\
         load (heap (final tt run_node_nil)) rv = VPtr x
     end) /\
  (forall T x, type_at heap_node_nil 0 = Some T ->
     canon (final tt run_node_nil) (TPtr T) x ->
     type_at (heap (final tt run_node_nil)) 0 = Some T /\
     type_at (heap (final tt run_node_nil)) x = Some T /\
     (exists ps : list (rtype * addr),
        visits (trace (final tt run_node_nil)) = (ps.*2 ++ [0])%list /\ x ∈ ps.*2) /\
     (x <> 0 \/
      exists a i ff, field_of sch_node heap_node_nil a i ff /\
        Typ ff = TPtr T /\ field_get heap_node_nil a i = VPtr 0)).
Proof.
  apply (root_not_registered string unit sch_node implements_node fn_ok
           0 heap_node_nil tt (final tt run_node_nil)).
  - vm_compute; reflexivity.
  - vm_compute; reflexivity.
Defined.

(** * Further runs *)

(** X1, witness: in the scenario with [A] nil and [B] pointing to [X], the
    walk visits the struct it allocated and the root; [X] (address 1) is as
    it was. *)
Lemma unvisited_structs_untouched_witness :
  heap (final tt run_nil_then_X) !! 1 =
    Some {| otype := tConn; ofields := [VData 7] |}.
Proof.
  apply (unvisited_structs_untouched string unit sch_two implements_conn fn_ok
           (VPtr 0) heap_nil_then_X tt (final tt run_nil_then_X) 1).
  - vm_compute; reflexivity.
  - reflexivity.
  - vm_compute. intros H. repeat (apply elem_of_cons in H as [H|H]; [discriminate|]).
    by apply elem_of_nil in H.
Defined.

(** X2, witness: the walk of the graph allocates two structs, the [Conn]
    and the [Dep], for the two types it registers. *)
Lemma Walk_allocates_instances_only_witness :
  length heap_graph <= length (heap (final tt run_graph))
    <= length heap_graph + size (visited (final tt run_graph)) /\
  size (visited (final tt run_graph)) <= length (schema_field_types sch_graph) /\
  forall x, length heap_graph <= x < length (heap (final tt run_graph)) ->
    exists t, visited (final tt run_graph) !! t = Some (RPtr x) /\
              type_at (heap (final tt run_graph)) x = Some (Elem t).
Proof.
  apply (Walk_allocates_instances_only string unit sch_graph implements_conn fn_ok
           (VPtr 0) heap_graph tt Ok (final tt run_graph)).
  - vm_compute; reflexivity.
  - vm_compute; reflexivity.
Defined.

(** X3, witness: the walk of the graph visits a [Conn], a [Dep] and the
    [Root], the three types reached from [Root]. *)
Lemma visited_types_are_the_reached_types_witness :
  (forall b, b ∈ visits (trace (final tt run_graph)) ->
     exists T, type_at (heap (final tt run_graph)) b = Some T /\
       reach sch_graph implements_conn tRoot T /\
       is_Some (struct_fields sch_graph T)) /\
  (Ok = Ok (error:=string) -> forall T,
     reach sch_graph implements_conn tRoot T <->
     exists b, b ∈ visits (trace (final tt run_graph)) /\
               type_at (heap (final tt run_graph)) b = Some T).
Proof.
  apply (visited_types_are_the_reached_types string unit sch_graph
           implements_conn fn_ok 0 heap_graph tt Ok (final tt run_graph) tRoot).
  - vm_compute; reflexivity.
  - vm_compute; reflexivity.
  - reflexivity.
Defined.

(** X4, witness: the schema of the graph is walkable from [Root], and the
    walk completes. *)
Lemma Walk_completes_iff_walkable_witness :
  (exists st', Walk sch_graph implements_conn fn_ok (VPtr 0) heap_graph tt =
                 Some (Ok, st')) <->
  walkable sch_graph implements_conn tRoot.
Proof.
  apply (Walk_completes_iff_walkable string unit sch_graph implements_conn fn_ok
           0 heap_graph tt tRoot).
  - vm_compute; reflexivity.
  - reflexivity.
  - intros a h' vs'. reflexivity.
Defined.

(** The graph, walked a second time. *)
Definition run_graph_again :=
  Walk sch_graph implements_conn fn_ok (VPtr 0) (heap (final tt run_graph)) tt.

(** X5, witness: the second walk of the graph leaves the three structs as
    the first one left them. *)
Lemma second_Walk_changes_nothing_witness :
  heap (final tt run_graph_again) = heap (final tt run_graph) /\
  forall t x, canon (final tt run_graph_again) t x ->
              canon (final tt run_graph) t x.
Proof.
  apply (second_Walk_changes_nothing string unit sch_graph implements_conn fn_ok
           0 heap_graph tt (final tt run_graph) 0 tt Ok (final tt run_graph_again)).
  - vm_compute; reflexivity.
  - vm_compute; reflexivity.
  - elem_tac.
  - vm_compute; reflexivity.
Defined.

(** A visitor that fails on a [Root] whose field [A] is nil. *)
Definition fn_needs_A : WalkFn string unit :=
  fun a h vs =>
    if bool_decide (type_at h a = Some tRoot) && IsNil h (RField a 0 false)
    then (Some "A is not set", vs)
    else (None, vs).

(** X6, witness: [Walk] sets [A] before it calls the visitor on the root, so
    the visitor that fails on a [Root] without [A] gives the same walk as
    the visitor that never fails. *)
Lemma visitor_called_on_wired_structs_only_witness :
  Walk sch_two implements_conn fn_ok (VPtr 0) heap_nil_then_X tt =
  Walk sch_two implements_conn fn_needs_A (VPtr 0) heap_nil_then_X tt.
Proof.
  apply (visitor_called_on_wired_structs_only sch_two implements_conn
           fn_ok fn_needs_A).
  - intros a h vs Hw. unfold fn_ok, fn_needs_A.
    destruct (bool_decide (type_at h a = Some tRoot)) eqn:Ht; [|done].
    apply bool_decide_eq_true in Ht.
    destruct (Hw 0 (field "A" (TPtr tConn))) as [x Hx].
    + exists tRoot. split; [done|]. eexists. split; vm_compute; reflexivity.
    + reflexivity.
    + unfold IsNil. simpl. by rewrite Hx.
  - vm_compute; reflexivity.
Defined.

(** * govc/cli: the [Client] flag

    [Client] is the flag that holds the URL of the server and, once
    processed, the connection.  Its methods are embedded over what they take
    from the packages they call: [url.Parse] and the method [String] of a
    URL of [net/url], [os.Getenv], the method [Var] of a flag set and
    [govmomi.NewClient]
    are parameters, of which nothing is assumed; [NewClient] and [Getenv]
    act on the world outside the program. *)

Section ClientFlag.

(** Go's [error] values and [errors.New]. *)
Variable error : Type.
Variable errors_New : string -> error.

(** [url.URL]: the field [User] and the other fields. *)
Variable Userinfo : Type.
Variable URLFields : Type.

Record URL : Type := mkURL {
  User : option Userinfo;
  url_fields : URLFields
}.

Variable url_Parse : string -> option URL * option error.
Variable URL_String : URL -> string.

Variable world : Type.
Variable os_Getenv : string -> world -> string.

Variable govmomi_Client : Type.
Variable govmomi_NewClient :
  URL -> world -> option govmomi_Client * option error * world.

(** [f.Var(c, name, usage)], for the one client [c]. *)
Variable FlagSet : Type.
Variable FlagSet_Var : FlagSet -> string -> string -> FlagSet.

Definition cDescr : string := "ESX or vCenter URL".

(** [type Client struct { *govmomi.Client; u *url.URL }] *)
Record Client : Type := mkClient {
  Client_ : option govmomi_Client;
  u : option URL
}.

Definition Client_String (c : Client) : string :=
  match u c with
  | Some url =>
      let withoutCredentials := {| User := None; url_fields := url_fields url |} in
      URL_String withoutCredentials
  | None => ""
  end.

Definition Client_Set (s : string) (c : Client) : option error * Client :=
  let '(p, err) := url_Parse s in
  (err, {| Client_ := Client_ c; u := p |}).

Definition Client_Register (f : FlagSet) (c : Client) (w : world)
    : Client * FlagSet :=
  let '(_, c') := Client_Set (os_Getenv "GOVMOMI_URL" w) c in
  (c', FlagSet_Var f "u" cDescr).

Definition Client_Process (c : Client) (w : world)
    : option error * Client * world :=
  match u c with
  | None => (Some (errors_New ("specify an " +:+ cDescr)), c, w)
  | Some url =>
      let '(g, err, w') := govmomi_NewClient url w in
      (err, {| Client_ := g; u := u c |}, w')
  end.

(** [url.Parse] returns no URL when it returns an error. *)
Definition Parse_nil_on_error : Prop :=
  forall s p e, url_Parse s = (p, Some e) -> p = None.

Lemma Set_error_nil s c e c' :
  Parse_nil_on_error -> Client_Set s c = (Some e, c') -> u c' = None.
Proof.
  intros Hp. unfold Client_Set.
  destruct (url_Parse s) as [p err] eqn:E. intros [= -> <-]. simpl.
  by eapply Hp.
Qed.

Lemma Process_nil c w :
  u c = None ->
  Client_Process c w =
    (Some (errors_New "specify an ESX or vCenter URL"), c, w).
Proof. intros Hu. unfold Client_Process. by rewrite Hu. Qed.

(** X7 (a [Set] that fails).  [Set] assigns what [url.Parse] returned also
    when it returns the error: a [Set] that fails removes the URL the client
    had.  After it [String] is empty, and [Process] returns the error
    [specify an ESX or vCenter URL] with the client and the world as they
    were: it makes no connection. *)
Theorem failed_Set_clears_the_URL s c e c' w :
  Parse_nil_on_error ->
  Client_Set s c = (Some e, c') ->
  Client_ c' = Client_ c /\
  Client_String c' = "" /\
  Client_Process c' w =
    (Some (errors_New "specify an ESX or vCenter URL"), c', w).
Proof.
  intros Hp HS. pose proof (Set_error_nil _ _ _ _ Hp HS) as Hu.
  split; [|split].
  - unfold Client_Set in HS. destruct (url_Parse s). by injection HS as _ <-.
  - unfold Client_String. by rewrite Hu.
  - by apply Process_nil.
Qed.

(** X8 (the URL of the environment).  [Register] drops the error of the
    [Set] it makes with [GOVMOMI_URL]: when that value does not parse, the
    flag [u] is registered all the same, and a [Process] that follows
    returns [specify an ESX or vCenter URL], not the error of the parser,
    and makes no connection. *)
Theorem Register_drops_the_parse_error f c w e c' f' w' :
  Parse_nil_on_error ->
  (url_Parse (os_Getenv "GOVMOMI_URL" w)).2 = Some e ->
  Client_Register f c w = (c', f') ->
  f' = FlagSet_Var f "u" "ESX or vCenter URL" /\
  Client_Process c' w' =
    (Some (errors_New "specify an ESX or vCenter URL"), c', w').
Proof.
  intros Hp He. unfold Client_Register.
  destruct (Client_Set _ c) as [err c1] eqn:HS. intros [= <- <-].
  split; [done|]. apply Process_nil.
  assert (err = Some e) as ->.
  { unfold Client_Set in HS. destruct (url_Parse _). simpl in He.
    injection HS as <- _. done. }
  by eapply Set_error_nil.
Qed.

(** X9 (the flag after the environment).  A [Set] replaces the URL and
    nothing else, so the [Set] that [Register] made with [GOVMOMI_URL]
    leaves no trace once the flag is set: the client is the one a [Set] on
    the unregistered client gives, whether or not either [Set] failed. *)
Theorem Set_overrides_the_environment f c w c1 f1 s :
  Client_Register f c w = (c1, f1) ->
  Client_Set s c1 = Client_Set s c.
Proof.
  unfold Client_Register, Client_Set.
  destruct (url_Parse (os_Getenv _ w)) as [p0 e0]. intros [= <- _].
  by destruct (url_Parse s).
Qed.

(** X10 (what [Process] connects to).  After a [Set] that returned no
    error, [Process] calls [NewClient] once, with the URL that [url.Parse]
    gave for the argument of that [Set], credentials included; it returns
    the error of [NewClient] as it is and stores the client [NewClient]
    returned, also when that call failed; the URL stays, so that [String]
    shows the same before and after. *)
Theorem Process_connects_to_the_URL_set s c c1 url w :
  Client_Set s c = (None, c1) -> u c1 = Some url ->
  url_Parse s = (Some url, None) /\
  exists g err w', govmomi_NewClient url w = (g, err, w') /\
    Client_Process c1 w = (err, {| Client_ := g; u := Some url |}, w') /\
    Client_String {| Client_ := g; u := Some url |} = Client_String c1.
Proof.
  unfold Client_Set. destruct (url_Parse s) as [p e] eqn:E.
  intros [= -> <-]. simpl. intros ->. split; [done|].
  unfold Client_Process. simpl.
  destruct (govmomi_NewClient url w) as [[g err] w'].
  exists g, err, w'. split; [done|]. split; [done|]. done.
Qed.

End ClientFlag.

Arguments mkURL {Userinfo URLFields} User url_fields.
Arguments User {Userinfo URLFields} u.
Arguments url_fields {Userinfo URLFields} u.
Arguments mkClient {Userinfo URLFields govmomi_Client} Client_ u.
Arguments Client_ {Userinfo URLFields govmomi_Client} c.
Arguments u {Userinfo URLFields govmomi_Client} c.
Arguments Client_String {Userinfo URLFields} URL_String {govmomi_Client} c.
Arguments Client_Set {error Userinfo URLFields} url_Parse {govmomi_Client} s c.
Arguments Client_Register {error Userinfo URLFields} url_Parse {world} os_Getenv
  {govmomi_Client FlagSet} FlagSet_Var f c w.
Arguments Client_Process {error} errors_New {Userinfo URLFields world
  govmomi_Client} govmomi_NewClient c w.
Arguments Parse_nil_on_error {error Userinfo URLFields} url_Parse.

(** ** A client with a toy parser

    Errors are their messages; a URL is its credentials and its host; the
    parser rejects the strings that start with a percent sign, and takes
    [user@host] apart; the environment is a function; a connection is the
    host it was made to, and the world counts the connections made. *)

Definition toy_URL : Type := URL string string.
Definition toy_Client : Type := Client string string string.

Fixpoint split_at (s : string) : option (string * string) :=
  match s with
  | EmptyString => None
  | String "@" rest => Some (EmptyString, rest)
  | String ch rest =>
      match split_at rest with
      | Some (l, r) => Some (String ch l, r)
      | None => None
      end
  end.

Definition toy_Parse (s : string) : option toy_URL * option string :=
  match s with
  | String "%" _ => (None, Some ("parse " +:+ s +:+ ": invalid URL escape"))
  | _ =>
      match split_at s with
      | Some (user, host) => (Some (mkURL (Some user) host), None)
      | None => (Some (mkURL None s), None)
      end
  end.

Definition toy_String (url : toy_URL) : string :=
  match User url with
  | Some user => user +:+ "@" +:+ url_fields url
  | None => url_fields url
  end.

Definition toy_Getenv (k : string) (w : (string -> string) * nat) : string :=
  w.1 k.

Definition toy_NewClient (url : toy_URL) (w : (string -> string) * nat)
    : option string * option string * ((string -> string) * nat) :=
  (Some (url_fields url), None, (w.1, S w.2)).

Definition toy_Var (f : list (string * string)) (name usage : string)
    : list (string * string) :=
  (f ++ [(name, usage)])%list.

Definition env_bad : string -> string :=
  fun k => if bool_decide (k = "GOVMOMI_URL") then "%zz" else "".

Definition client_set : toy_Client :=
  mkClient None (Some (mkURL (Some "root:secret") "esx1")).

Lemma toy_Parse_nil_on_error : Parse_nil_on_error toy_Parse.
Proof.
  intros s p e. unfold toy_Parse. destruct s as [|ch s]; simpl.
  { intros [=]. }
  destruct (Ascii.eqb ch "%") eqn:E.
  - apply Ascii.eqb_eq in E as ->. by intros [= <- _].
  - assert (Hne : ch <> "%"%char) by (by apply Ascii.eqb_neq).
    clear E. intros H. exfalso.
    destruct ch as [[] [] [] [] [] [] [] []]; try done;
      simpl in H; repeat case_match; done.
Qed.

(** X7, witness: the client has the URL of [esx1]; a [Set] with a string
    that does not parse fails, and [Process] then asks for a URL. *)
Lemma failed_Set_clears_the_URL_witness :
  Client_ (mkClient None None : toy_Client) = Client_ client_set /\
  Client_String toy_String (mkClient None None : toy_Client) = "" /\
  Client_Process id toy_NewClient (mkClient None None : toy_Client) (env_bad, 0) =
    (Some "specify an ESX or vCenter URL", mkClient None None, (env_bad, 0)).
Proof.
  apply (failed_Set_clears_the_URL string id string string toy_Parse toy_String
           ((string -> string) * nat)%type string toy_NewClient
           "%zz" client_set "parse %zz: invalid URL escape"
           (mkClient None None) (env_bad, 0)).
  - exact toy_Parse_nil_on_error.
  - reflexivity.
Defined.

(** X8, witness: [GOVMOMI_URL] holds a string that does not parse. *)
Lemma Register_drops_the_parse_error_witness :
  toy_Var [] "u" "ESX or vCenter URL" = toy_Var [] "u" "ESX or vCenter URL" /\
  Client_Process id toy_NewClient (mkClient None None : toy_Client) (env_bad, 0) =
    (Some "specify an ESX or vCenter URL", mkClient None None, (env_bad, 0)).
Proof.
  apply (Register_drops_the_parse_error string id string string toy_Parse
           ((string -> string) * nat)%type toy_Getenv string toy_NewClient
           (list (string * string)) toy_Var
           [] client_set (env_bad, 0) "parse %zz: invalid URL escape"
           (mkClient None None) (toy_Var [] "u" "ESX or vCenter URL") (env_bad, 0)).
  - exact toy_Parse_nil_on_error.
  - reflexivity.
  - reflexivity.
Defined.

(** X9, witness: after [Register] with the bad [GOVMOMI_URL], the flag sets
    the URL of [esx2]. *)
Lemma Set_overrides_the_environment_witness :
  Client_Set toy_Parse "admin:pw@esx2" (mkClient None None : toy_Client) =
  Client_Set toy_Parse "admin:pw@esx2" client_set.
Proof.
  apply (Set_overrides_the_environment string string string toy_Parse
           ((string -> string) * nat)%type toy_Getenv string
           (list (string * string)) toy_Var
           [] client_set (env_bad, 0) (mkClient None None)
           (toy_Var [] "u" "ESX or vCenter URL") "admin:pw@esx2").
  reflexivity.
Defined.

(** X10, witness: the flag sets [admin:pw@esx2]; [Process] connects with
    the credentials, and [String] shows the host only. *)
Lemma Process_connects_to_the_URL_set_witness :
  toy_Parse "admin:pw@esx2" = (Some (mkURL (Some "admin:pw") "esx2"), None) /\
  exists g err w',
    toy_NewClient (mkURL (Some "admin:pw") "esx2") (env_bad, 0) = (g, err, w') /\
    Client_Process id toy_NewClient
      (mkClient None (Some (mkURL (Some "admin:pw") "esx2"))) (env_bad, 0) =
      (err, mkClient g (Some (mkURL (Some "admin:pw") "esx2")), w') /\
    Client_String toy_String (mkClient g (Some (mkURL (Some "admin:pw") "esx2"))) =
    Client_String toy_String
      (mkClient (None : option string) (Some (mkURL (Some "admin:pw") "esx2"))).
Proof.
  apply (Process_connects_to_the_URL_set string id string string toy_Parse
           toy_String ((string -> string) * nat)%type string toy_NewClient
           "admin:pw@esx2" client_set
           (mkClient None (Some (mkURL (Some "admin:pw") "esx2")))
           (mkURL (Some "admin:pw") "esx2") (env_bad, 0)).
  - reflexivity.
  - reflexivity.
Defined.
